(** * The chat widget [AItest]: conversation and request lifecycle

    A shallow embedding of the React component [AItest] (the chat widget
    that calls the chat-completion endpoint from the browser) and the
    properties of its message transformer, its request dispatcher
    [sendMessage], its helper [safeShort] and its credential handlers.

    Conventions of the embedding.
    - A JavaScript string is its sequence of UTF-16 code units, so that
      [length] is [s.length] and [take] is [s.slice(0, n)].
    - The component state (the [useState] cells) and [localStorage] form one
      record [State]; a setter call is an [Effect] applied to it.  React
      applies the setter calls of a handler in the order of the calls, and
      no handler reads a cell again after setting it, so a call is applied
      where it is made.
    - A handler is a program [Prog]: a tree of setter calls and [await]
      points.  An [async] function is suspended at an [await] and resumed
      with the outcome of the awaited promise.
    - A handler reads the state of the render that created it; it is
      invoked with the committed state (React re-renders between events).

    The development also embeds what the component shows of its state
    ([renderMarkdownLike], the message list, the submit button) and
    [revealOnScroll] of the scroll script, whose measurements of the page
    are inputs of each run. *)

From Stdlib Require Import ZArith NArith Lia Ascii String DecimalString.
From Stdlib Require QArith.
From stdpp Require Import base list gmap strings.

Local Open Scope list_scope.
Set Warnings "-register-all".

(** ** JavaScript strings *)

Definition code_unit := N.
Definition jsstr := list code_unit.

(** An ASCII literal as a JavaScript string. *)
Definition lit (s : string) : jsstr := map N_of_ascii (list_ascii_of_string s).

(** [!s] on a string: only the empty string is falsy. *)
Definition is_empty (s : jsstr) : bool :=
  match s with [] => true | _ :: _ => false end.

(** White space and line terminators of ECMAScript, the code units that
    [String.prototype.trim] strips. *)
Definition is_white (c : code_unit) : bool :=
  ((9 <=? c) && (c <=? 13) || (c =? 32) || (c =? 160) || (c =? 5760)
   || (8192 <=? c) && (c <=? 8202) || (c =? 8232) || (c =? 8233)
   || (c =? 8239) || (c =? 8287) || (c =? 12288) || (c =? 65279))%N.

Fixpoint trimStart (s : jsstr) : jsstr :=
  match s with
  | c :: rest => if is_white c then trimStart rest else s
  | [] => []
  end.

Definition trimEnd (s : jsstr) : jsstr := rev (trimStart (rev s)).

Definition trim (s : jsstr) : jsstr := trimEnd (trimStart s).

(** [Array.prototype.join] on an array of strings. *)
Fixpoint join (sep : jsstr) (l : list jsstr) : jsstr :=
  match l with
  | [] => []
  | [x] => x
  | x :: rest => x ++ sep ++ join sep rest
  end.

(** [s.slice(0, n)] for an integer [n]: a negative end counts from the end
    of the string, and the end is clamped to the string. *)
Definition slice0 (s : jsstr) (n : Z) : jsstr :=
  let len := Z.of_nat (length s) in
  let final := if (n <? 0)%Z then Z.max (len + n) 0 else Z.min n len in
  take (Z.to_nat final) s.

(** Template-literal conversion of a non-negative integer (an HTTP status). *)
Definition number_to_string (n : N) : jsstr :=
  lit (NilZero.string_of_uint (N.to_uint n)).

(** ** Data model *)

(** [ChatMsg.role] is ['user' | 'model']. *)
Inductive Role := User | Model.

Record Part := { text : jsstr }.
Record ChatMsg := { role : Role; parts : list Part }.

(** An entry of the request's [messages] array. *)
Record ApiMsg := { api_role : jsstr; content : jsstr }.

Definition ellipsis : jsstr := [8230%N].
Definition newline : jsstr := [10%N].

(** ** [safeShort] *)

(** No operation of the [try] block throws on a string, so the [catch]
    branch is dead and the function is its [try] block. *)
Definition safeShort (s : jsstr) (n : Z) : jsstr :=
  if is_empty s then []
  else if (Z.of_nat (length s) >? n)%Z then slice0 s n ++ ellipsis
  else s.

(** The default of the parameter [n]. *)
Definition safeShort_default_n : Z := 300.

(** ** [toOpenAIMessages] *)

Definition toOpenAIMessages (h : list ChatMsg) : list ApiMsg :=
  map (fun msg =>
         {| api_role := match role msg with
                        | Model => lit "assistant"
                        | User => lit "user"
                        end;
            content := join newline (map text (parts msg)) |}) h.

(** ** Values of the runtime *)

(** A parsed JSON value.  A number is kept as the string it converts to;
    an object is its list of own properties, one binding per key. *)
Inductive json :=
| JNull
| JBool (b : bool)
| JNum (shown_as : jsstr)
| JStr (s : jsstr)
| JArr (items : list json)
| JObj (fields : list (jsstr * json)).

Fixpoint own_property (key : jsstr) (fields : list (jsstr * json)) : option json :=
  match fields with
  | [] => None
  | (k, v) :: rest => if decide (k = key) then Some v else own_property key rest
  end.

(** [v.key] for a key that no prototype defines ([choices], [message],
    [content]): [None] is [undefined]. *)
Definition get_named (key : jsstr) (v : json) : option json :=
  match v with
  | JObj fields => own_property key fields
  | _ => None
  end.

(** [v[0]]: the first element of an array, the property ["0"] of an object,
    the first code unit of a string. *)
Definition get_first (v : json) : option json :=
  match v with
  | JArr items => head items
  | JObj fields => own_property (lit "0") fields
  | JStr (c :: _) => Some (JStr [c])
  | _ => None
  end.

(** [o?.p]: [undefined] when [o] is [undefined] or [null]. *)
Definition opt_chain (o : option json) (p : json -> option json) : option json :=
  match o with
  | None | Some JNull => None
  | Some v => p v
  end.

(** [o ?? d]. *)
Definition nullish (o : option json) (d : json) : json :=
  match o with
  | None | Some JNull => d
  | Some v => v
  end.

(** What a value reads as in [parts.map(p => p.text).join(sep)], the only
    way the component reads a message text: a string reads as itself, any
    other element is converted ([null] to the empty string, an array by
    joining its elements with a comma).  [reply] is declared [string]; for
    a completion whose content is not a string the state cell keeps the raw
    value, and the model keeps what every reader of the cell obtains. *)
Fixpoint read_as_text (v : json) : jsstr :=
  match v with
  | JNull => []
  | JBool true => lit "true"
  | JBool false => lit "false"
  | JNum shown_as => shown_as
  | JStr s => s
  | JArr items => join (lit ",") (map read_as_text items)
  | JObj _ => lit "[object Object]"
  end.

(** An [Error] object. *)
Record JsError := { name : jsstr; message : jsstr }.

(** [new Error(msg)]. *)
Definition new_Error (msg : jsstr) : JsError :=
  {| name := lit "Error"; message := msg |}.

(** [String(err)], that is [Error.prototype.toString]. *)
Definition error_toString (err : JsError) : jsstr :=
  if is_empty (name err) then message err
  else if is_empty (message err) then name err
  else name err ++ lit ": " ++ message err.

(** [err?.message || String(err)]. *)
Definition error_text (err : JsError) : jsstr :=
  if is_empty (message err) then error_toString err else message err.

(** The outcome of a promise. *)
Inductive Settled (A : Type) : Type :=
| Fulfilled (a : A)
| Rejected (err : JsError).
Arguments Fulfilled {A} a.
Arguments Rejected {A} err.

(** A [Response]: its status and what reading its body gives.  JSON parsing
    is the runtime's, so the outcome of [json()] is carried next to that of
    [text()]. *)
Record Response := {
  status : N;
  body_text : Settled jsstr;
  body_json : Settled json
}.

(** [resp.ok], by the Fetch standard: a status in the range 200 to 299. *)
Definition ok (resp : Response) : bool :=
  ((200 <=? status resp) && (status resp <=? 299))%N.

(** The argument of [fetch]: the URL and the [init] object, the body before
    [JSON.stringify]. *)
Record Request := {
  url : jsstr;
  method : jsstr;
  header_Authorization : jsstr;
  header_Content_Type : jsstr;
  body_model : jsstr;
  body_messages : list ApiMsg
}.

(** ** Component state *)

Record State := {
  model : jsstr;
  history : list ChatMsg;
  input : jsstr;
  apiKey : jsstr;
  rememberKey : bool;
  loading : bool;
  error : jsstr;
  localStorage : gmap jsstr jsstr
}.

(** The setters of the [useState] cells and the two [localStorage] writes.
    [updHistory f] is [setHistory] called with an updater function. *)
Inductive Effect :=
| setModel (v : jsstr)
| setHistory (h : list ChatMsg)
| updHistory (f : list ChatMsg -> list ChatMsg)
| setInput (v : jsstr)
| setApiKey (v : jsstr)
| setRememberKey (b : bool)
| setLoading (b : bool)
| setError (s : jsstr)
| setItem (key value : jsstr)
| removeItem (key : jsstr).

Definition apply_effect (eff : Effect) (st : State) : State :=
  let m := model st in
  let h := history st in
  let i := input st in
  let k := apiKey st in
  let r := rememberKey st in
  let l := loading st in
  let e := error st in
  let ls := localStorage st in
  match eff with
  | setModel v => Build_State v h i k r l e ls
  | setHistory h' => Build_State m h' i k r l e ls
  | updHistory f => Build_State m (f h) i k r l e ls
  | setInput v => Build_State m h v k r l e ls
  | setApiKey v => Build_State m h i v r l e ls
  | setRememberKey b => Build_State m h i k b l e ls
  | setLoading b => Build_State m h i k r b e ls
  | setError s => Build_State m h i k r l s ls
  | setItem key value => Build_State m h i k r l e (<[key := value]> ls)
  | removeItem key => Build_State m h i k r l e (delete key ls)
  end.

(** ** Programs *)

(** The promises the component awaits. *)
Inductive Promise : Type -> Type :=
| fetch (req : Request) : Promise Response
| resp_text (resp : Response) : Promise jsstr
| resp_json (resp : Response) : Promise json.

(** A handler body: setter calls, [await] points, [return] and [throw]. *)
Inductive Prog (A : Type) : Type :=
| Return (a : A)
| Throw (err : JsError)
| Do (eff : Effect) (k : Prog A)
| Await {X : Type} (p : Promise X) (k : Settled X -> Prog A).
Arguments Return {A} a.
Arguments Throw {A} err.
Arguments Do {A} eff k.
Arguments Await {A X} p k.

Fixpoint bind {A B : Type} (m : Prog A) (f : A -> Prog B) : Prog B :=
  match m with
  | Return a => f a
  | Throw err => Throw err
  | Do eff k => Do eff (bind k f)
  | Await p k => Await p (fun o => bind (k o) f)
  end.

(** A setter call as a statement. *)
Definition call (eff : Effect) : Prog unit := Do eff (Return tt).
Coercion call : Effect >-> Prog.

(** [await p]: the value of a fulfilled promise, a throw for a rejected one. *)
Definition await {X : Type} (p : Promise X) : Prog X :=
  Await p (fun o => match o with
                    | Fulfilled a => Return a
                    | Rejected err => Throw err
                    end).

(** [try { body } catch (err) { handler }]. *)
Fixpoint try_catch {A : Type} (body : Prog A) (handler : JsError -> Prog A) : Prog A :=
  match body with
  | Return a => Return a
  | Throw err => handler err
  | Do eff k => Do eff (try_catch k handler)
  | Await p k => Await p (fun o => try_catch (k o) handler)
  end.

(** [try { body } finally { fin }]. *)
Fixpoint try_finally {A : Type} (body : Prog A) (fin : Prog unit) : Prog A :=
  match body with
  | Return a => bind fin (fun _ => Return a)
  | Throw err => bind fin (fun _ => Throw err)
  | Do eff k => Do eff (try_finally k fin)
  | Await p k => Await p (fun o => try_finally (k o) fin)
  end.

Declare Scope prog_scope.
Delimit Scope prog_scope with prog.
Bind Scope prog_scope with Prog.

Notation "x <- m ;; k" := (bind m (fun x => k))
  (at level 100, m at level 99, k at level 200, right associativity) : prog_scope.
Notation "m ;; k" := (bind m (fun _ => k))
  (at level 100, k at level 200, right associativity) : prog_scope.

Local Open Scope prog_scope.

(** ** The component *)

Definition storage_key : jsstr := lit "openai_api_key".

(** The error shown when the key is missing (22 code units, non-ASCII ones
    by code point). *)
Definition missing_key_message : jsstr :=
  [35531; 20808; 36664; 20837; 26377; 25928; 30340; 32]%N ++ lit "OpenAI API Key".

(** The template literal of the HTTP error up to [safeShort(errText)]: the
    text before the status, the status, a closing bracket and a colon (both
    full-width). *)
Definition http_error_prefix (status : N) : jsstr :=
  lit "OpenAI API " ++ [37679; 35492; 65288]%N ++ lit "HTTP "
  ++ number_to_string status ++ [65289; 65306]%N.

Definition no_content : jsstr := lit "[No content]".

(** The seeded greeting (25 code units, the first two a surrogate pair). *)
Definition greeting : jsstr :=
  [55357; 56395; 32; 36889; 35041; 26159; 32]%N ++ lit "OpenAI Chat"
  ++ [65292; 23567; 24171; 25163; 22312; 36889; 65281]%N.

Definition user_msg (content : jsstr) : ChatMsg :=
  {| role := User; parts := [{| text := content |}] |}.

Definition model_msg (reply : jsstr) : ChatMsg :=
  {| role := Model; parts := [{| text := reply |}] |}.

(** [data?.choices?.[0]?.message?.content]. *)
Definition completion_content (data : json) : option json :=
  opt_chain (opt_chain (opt_chain (opt_chain (Some data)
    (get_named (lit "choices"))) get_first)
    (get_named (lit "message"))) (get_named (lit "content")).

(** The arguments of the [fetch] call of [sendMessage]. *)
Definition completions_request (apiKey model : jsstr) (messages : list ApiMsg)
  : Request :=
  {| url := lit "https://api.openai.com/v1/chat/completions";
     method := lit "POST";
     header_Authorization := lit "Bearer " ++ apiKey;
     header_Content_Type := lit "application/json";
     body_model := model;
     body_messages := messages |}.

(** [sendMessage(message)], in the closure of the render with state [st]. *)
Definition sendMessage (st : State) (message : option jsstr) : Prog unit :=
  let content := trim (default (input st) message) in
  if is_empty content || loading st then Return tt
  else if is_empty (apiKey st) then setError missing_key_message
  else
    setError [] ;;
    setLoading true ;;
    let newHistory := history st ++ [user_msg content] in
    setHistory newHistory ;;
    setInput [] ;;
    try_finally
      (try_catch
         (let messages := toOpenAIMessages newHistory in
          resp <- await (fetch (completions_request (apiKey st) (model st) messages)) ;;
          (if negb (ok resp) then
             errText <- await (resp_text resp) ;;
             Throw (new_Error (http_error_prefix (status resp)
                               ++ safeShort errText safeShort_default_n))
           else Return tt) ;;
          data <- await (resp_json resp) ;;
          let reply := nullish (completion_content data) (JStr no_content) in
          updHistory (fun h => h ++ [model_msg (read_as_text reply)]))
         (fun err => setError (error_text err)))
      (setLoading false).

(** The [onChange] handler of the key field. *)
Definition apiKey_onChange (st : State) (v : jsstr) : Prog unit :=
  setApiKey v ;;
  if rememberKey st then setItem storage_key v else Return tt.

(** The [onChange] handler of the remember check box. *)
Definition rememberKey_onChange (st : State) (checked : bool) : Prog unit :=
  setRememberKey checked ;;
  if negb checked then removeItem storage_key
  else if negb (is_empty (apiKey st)) then setItem storage_key (apiKey st)
  else Return tt.

(** The first mount effect: load a saved key. *)
Definition load_saved_key (st : State) : Prog unit :=
  match localStorage st !! storage_key with
  | Some saved => if is_empty saved then Return tt else setApiKey saved
  | None => Return tt
  end.

(** The second mount effect: seed the conversation and the input. *)
Definition seed_conversation (starter : jsstr) : Prog unit :=
  setHistory [model_msg greeting] ;;
  if is_empty starter then Return tt else setInput starter.

(** ** Running a program against an environment *)

(** The environment answers each request. *)
Definition Env := Request -> Settled Response.

Definition settle (env : Env) {X : Type} (p : Promise X) : Settled X :=
  match p with
  | fetch req => env req
  | resp_text resp => body_text resp
  | resp_json resp => body_json resp
  end.

(** What a run does, in program order. *)
Inductive Event :=
| called (eff : Effect)
| awaited {X : Type} (p : Promise X).

Definition is_network (ev : Event) : bool :=
  match ev with
  | called _ => false
  | awaited _ => true
  end.

(** The [fetch] calls of a trace. *)
Fixpoint requests (tr : list Event) : list Request :=
  match tr with
  | [] => []
  | awaited (fetch req) :: rest => req :: requests rest
  | _ :: rest => requests rest
  end.

Inductive Completion (A : Type) : Type :=
| Normal (a : A)
| Thrown (err : JsError).
Arguments Normal {A} a.
Arguments Thrown {A} err.

Record Run (A : Type) := {
  trace : list Event;
  final : State;
  completion : Completion A
}.
Arguments trace {A} r.
Arguments final {A} r.
Arguments completion {A} r.

(** A whole run, each awaited promise settled by the environment and no
    other handler running in between. *)
Fixpoint exec {A : Type} (env : Env) (m : Prog A) (st : State) : Run A :=
  match m with
  | Return a => {| trace := []; final := st; completion := Normal a |}
  | Throw err => {| trace := []; final := st; completion := Thrown err |}
  | Do eff k =>
      let r := exec env k (apply_effect eff st) in
      {| trace := called eff :: trace r; final := final r; completion := completion r |}
  | Await p k =>
      let r := exec env (k (settle env p)) st in
      {| trace := awaited p :: trace r; final := final r; completion := completion r |}
  end.

(** [send(text)] as one run. *)
Definition send (env : Env) (text : jsstr) (st : State) : Run unit :=
  exec env (sendMessage st (Some text)) st.

(** ** The component as a reactive system *)

(** A suspended call of an [async] function: the promise it awaits and its
    continuation. *)
Inductive Task : Type :=
| Suspended {X : Type} (p : Promise X) (k : Settled X -> Prog unit).

(** Run a handler until it ends or suspends at an [await]. *)
Fixpoint run_sync (m : Prog unit) (st : State) : list Event * State * option Task :=
  match m with
  | Return _ => ([], st, None)
  | Throw _ => ([], st, None)
  | Do eff k =>
      let '(tr, st', t) := run_sync k (apply_effect eff st) in
      (called eff :: tr, st', t)
  | Await p k => ([awaited p], st, Some (Suspended p k))
  end.

(** The committed state, the suspended calls and what happened so far. *)
Record Config := {
  store : State;
  pending : list Task;
  log : list Event
}.

(** Run [m] on the store; [others] are the calls that stay suspended. *)
Definition advance (m : Prog unit) (others : list Task) (cfg : Config) : Config :=
  let '(tr, st', t) := run_sync m (store cfg) in
  {| store := st'; pending := others ++ option_list t; log := log cfg ++ tr |}.

(** What the user can do: submit the form, click a suggestion, edit a
    field, toggle the check box. *)
Inductive UserEvent :=
| Submit
| Suggest (q : jsstr)
| KeyChange (v : jsstr)
| RememberChange (checked : bool)
| InputChange (v : jsstr)
| ModelChange (v : jsstr).

Definition handler (st : State) (ev : UserEvent) : Prog unit :=
  match ev with
  | Submit => sendMessage st None
  | Suggest q => sendMessage st (Some q)
  | KeyChange v => apiKey_onChange st v
  | RememberChange checked => rememberKey_onChange st checked
  | InputChange v => setInput v
  | ModelChange v => setModel v
  end.

(** One turn of the event loop: a user event runs its handler on the
    committed state, or the environment settles the promise of a suspended
    call, which resumes. *)
Inductive step : Config -> Config -> Prop :=
| step_user (cfg : Config) (ev : UserEvent) :
    step cfg (advance (handler (store cfg) ev) (pending cfg) cfg)
| step_settle (cfg : Config) (X : Type) (p : Promise X)
    (k : Settled X -> Prog unit) (before after : list Task) (env : Env) :
    pending cfg = before ++ Suspended p k :: after ->
    step cfg (advance (k (settle env p)) (before ++ after) cfg).

(** The [useState] defaults of the first render. *)
Definition first_render (defaultModel : jsstr) (ls : gmap jsstr jsstr) : State :=
  {| model := defaultModel; history := []; input := []; apiKey := [];
     rememberKey := true; loading := false; error := [];
     localStorage := ls |}.

(** The component after its mount effects. *)
Definition mounted (defaultModel starter : jsstr) (ls : gmap jsstr jsstr) : Config :=
  let st := first_render defaultModel ls in
  advance (load_saved_key st ;; seed_conversation starter) []
    {| store := st; pending := []; log := [] |}.

Inductive reachable : Config -> Prop :=
| reach_mounted (defaultModel starter : jsstr) (ls : gmap jsstr jsstr) :
    reachable (mounted defaultModel starter ls)
| reach_step (cfg cfg' : Config) :
    reachable cfg -> step cfg cfg' -> reachable cfg'.

(** The flag [loading] as a program runs: [flag] is its value now; it is
    set at every [await] and cleared when the program ends. *)
Fixpoint settles (flag : bool) (m : Prog unit) : Prop :=
  match m with
  | Return _ => flag = false
  | Throw _ => flag = false
  | Do eff k =>
      settles (match eff with setLoading b => b | _ => flag end) k
  | Await p k => flag = true /\ forall o, settles true (k o)
  end.

(** A suspended call that clears the flag when it ends, however its
    promise is settled. *)
Definition task_ok (t : Task) : Prop :=
  match t with
  | Suspended p k => forall o, settles true (k o)
  end.

(** The mutual-exclusion gate: the flag is set exactly while a call is
    suspended, and at most one is. *)
Definition one_in_flight (cfg : Config) : Prop :=
  match pending cfg with
  | [] => loading (store cfg) = false
  | [t] => loading (store cfg) = true /\ task_ok t
  | _ :: _ :: _ => False
  end.

(** A program that neither awaits nor touches [loading]. *)
Fixpoint quiet (m : Prog unit) : Prop :=
  match m with
  | Return _ => True
  | Throw _ => True
  | Do (setLoading _) _ => False
  | Do _ k => quiet k
  | Await _ _ => False
  end.

(** ** Sample inputs *)

(** A state of the mounted component with a key typed in. *)
Definition sample_state : State :=
  {| model := lit "gpt-5"; history := [model_msg greeting]; input := [];
     apiKey := lit "sk-demo"; rememberKey := true; loading := false;
     error := []; localStorage := {[ storage_key := lit "sk-demo" ]} |}.

(** The environment that answers every request with [resp]. *)
Definition answering (resp : Response) : Env := fun _ => Fulfilled resp.

(** The environment in which every request fails in transport. *)
Definition offline : Env :=
  fun _ => Rejected {| name := lit "TypeError"; message := lit "Failed to fetch" |}.

Definition quoted (s : string) : jsstr := [34%N] ++ lit s ++ [34%N].

Definition not_json : JsError :=
  {| name := lit "SyntaxError"; message := lit "Unexpected token" |}.

(** A completion whose text is ["Hello"]. *)
Definition hello_data : json :=
  JObj [(lit "choices",
         JArr [JObj [(lit "message",
                      JObj [(lit "content", JStr (lit "Hello"))])]])].

Definition hello_response : Response :=
  {| status := 200;
     body_text := Fulfilled (lit "{" ++ quoted "choices" ++ lit ":[{"
                             ++ quoted "message" ++ lit ":{" ++ quoted "content"
                             ++ lit ":" ++ quoted "Hello" ++ lit "}}]}");
     body_json := Fulfilled hello_data |}.

(** A completion whose message has no content field. *)
Definition bare_data : json :=
  JObj [(lit "choices", JArr [JObj [(lit "message", JObj [])]])].

Definition bare_response : Response :=
  {| status := 200;
     body_text := Fulfilled (lit "{" ++ quoted "choices" ++ lit ":[{"
                             ++ quoted "message" ++ lit ":{}}]}");
     body_json := Fulfilled bare_data |}.

(** An HTTP 401 with a short body. *)
Definition unauthorized_response : Response :=
  {| status := 401;
     body_text := Fulfilled (lit "Unauthorized");
     body_json := Rejected not_json |}.

(** An HTTP 401 whose body has 301 code units. *)
Definition verbose_response : Response :=
  {| status := 401;
     body_text := Fulfilled (replicate 301 120%N);
     body_json := Rejected not_json |}.

(** The user event [ev] on the configuration [cfg]. *)
Definition after_user (ev : UserEvent) (cfg : Config) : Config :=
  advance (handler (store cfg) ev) (pending cfg) cfg.

(** A request is in flight, and then the key field is emptied: the
    component is mounted, a key is typed, a suggestion is clicked, the key
    is deleted. *)
Definition request_in_flight : Config :=
  after_user (Suggest (lit "hi"))
    (after_user (KeyChange (lit "sk-demo")) (mounted (lit "gpt-5") [] ∅)).

Definition keyless_in_flight : Config :=
  after_user (KeyChange []) request_in_flight.

(** ** What the component shows *)

(** [text.split(/\n/)]: the pieces between line feeds, at least one. *)
Fixpoint split_lines (s : jsstr) : list jsstr :=
  match s with
  | [] => [[]]
  | c :: rest =>
      if (c =? 10)%N then [] :: split_lines rest
      else match split_lines rest with
           | line :: lines => (c :: line) :: lines
           | [] => [[c]]
           end
  end.

(** [renderMarkdownLike(text)]: one [div] per line, in order; the model
    keeps the text of each. *)
Definition renderMarkdownLike (text : jsstr) : list jsstr := split_lines text.

(** A block of the message list: the role label and the lines of the body. *)
Record MessageView := { shown_role : jsstr; shown_lines : list jsstr }.

(** The block of one entry of [history.map(...)]. *)
Definition message_view (m : ChatMsg) : MessageView :=
  {| shown_role := match role m with
                   | User => lit "You"
                   | Model => lit "OpenAI"
                   end;
     shown_lines := renderMarkdownLike (join newline (map text (parts m))) |}.

(** The block shown while [loading] (its body is three CJK units and the
    ellipsis). *)
Definition thinking_view : MessageView :=
  {| shown_role := lit "OpenAI";
     shown_lines := [[24605; 32771; 20013; 8230]%N] |}.

(** The parts of the returned JSX that depend on the state: the message
    list, the error line (a warning sign, a space and the error) and the
    [disabled] attribute of the submit button. *)
Record View := {
  messages_view : list MessageView;
  error_view : option jsstr;
  submit_disabled : bool
}.

Definition AItest_view (st : State) : View :=
  {| messages_view := map message_view (history st)
                      ++ (if loading st then [thinking_view] else []);
     error_view := if is_empty (error st) then None
                   else Some ([9888; 32]%N ++ error st);
     submit_disabled := loading st || is_empty (trim (input st))
                        || is_empty (apiKey st) |}.


(** The arguments of the [setError] calls of a trace, in order. *)
Fixpoint error_calls (tr : list Event) : list jsstr :=
  match tr with
  | [] => []
  | called (setError s) :: rest => s :: error_calls rest
  | _ :: rest => error_calls rest
  end.

(** A state with a draft in the input field and an old error shown. *)
Definition drafting_state : State :=
  {| model := lit "gpt-5"; history := [model_msg greeting];
     input := lit "draft"; apiKey := lit "sk-demo"; rememberKey := true;
     loading := false; error := lit "old error";
     localStorage := {[ storage_key := lit "sk-demo" ]} |}.

(** A success status whose body is not JSON. *)
Definition garbled_response : Response :=
  {| status := 200;
     body_text := Fulfilled (lit "<html>");
     body_json := Rejected not_json |}.

(** A failure status whose body cannot be read. *)
Definition broken_response : Response :=
  {| status := 502;
     body_text := Rejected {| name := lit "TypeError"; message := lit "network error" |};
     body_json := Rejected {| name := lit "TypeError"; message := lit "network error" |} |}.

(** A completion whose content is [null], as with a tool call. *)
Definition null_content_data : json :=
  JObj [(lit "choices",
         JArr [JObj [(lit "message", JObj [(lit "content", JNull)])]])].

Definition null_content_response : Response :=
  {| status := 200;
     body_text := Fulfilled (lit "{" ++ quoted "choices" ++ lit ":[{"
                             ++ quoted "message" ++ lit ":{" ++ quoted "content"
                             ++ lit ":null}}]}");
     body_json := Fulfilled null_content_data |}.

(** A completion whose content is the empty string. *)
Definition empty_content_data : json :=
  JObj [(lit "choices",
         JArr [JObj [(lit "message", JObj [(lit "content", JStr [])])]])].

Definition empty_content_response : Response :=
  {| status := 200;
     body_text := Fulfilled (lit "{" ++ quoted "choices" ++ lit ":[{"
                             ++ quoted "message" ++ lit ":{" ++ quoted "content"
                             ++ lit ":" ++ quoted "" ++ lit "}}]}");
     body_json := Fulfilled empty_content_data |}.


(** ** Invariants of the reactive system *)

(** The store and the log. *)
Definition World : Type := State * list Event.

Definition world (cfg : Config) : World := (store cfg, log cfg).

(** A program keeps [R]: each of its synchronous stretches, from the world
    [w0] where the stretch starts to the world where it ends or suspends,
    is in [R]; a stretch after an [await] starts from whatever the world
    has become by then.  [w] is the world so far in the current stretch. *)
Fixpoint keeps (R : World -> World -> Prop) (m : Prog unit) (w0 w : World) : Prop :=
  match m with
  | Return _ => R w0 w
  | Throw _ => R w0 w
  | Do eff k => keeps R k w0 (apply_effect eff w.1, w.2 ++ [called eff])
  | Await p k =>
      R w0 (w.1, w.2 ++ [awaited p])
      /\ forall (o : Settled _) (w' : World), keeps R (k o) w' w'
  end.

Definition task_keeps (R : World -> World -> Prop) (t : Task) : Prop :=
  match t with
  | Suspended p k => forall (o : Settled _) (w' : World), keeps R (k o) w' w'
  end.

(** The stored credential mirrors the one in memory: with persistence on
    the slot holds the credential (or both are empty), with persistence off
    the slot is empty. *)
Definition credential_synced (st : State) : Prop :=
  if rememberKey st
  then localStorage st !! storage_key = Some (apiKey st)
       \/ (apiKey st = [] /\ localStorage st !! storage_key = None)
  else localStorage st !! storage_key = None.

(** A message as the component makes them: one part, and for a user message
    a text that is non-empty and trimmed. *)
Definition well_formed (m : ChatMsg) : Prop :=
  exists t : jsstr,
    parts m = [ {| text := t |} ]
    /\ (role m = User -> t <> [] /\ trim t = t).

Definition is_user (m : ChatMsg) : bool :=
  match role m with User => true | Model => false end.

(** The user turns of a conversation. *)
Definition user_turns (h : list ChatMsg) : nat := length (List.filter is_user h).


(** A string that does not start with white space. *)
Definition starts_clean (s : jsstr) : Prop :=
  match s with
  | [] => True
  | c :: _ => is_white c = false
  end.

(** The conversation only grows at its end. *)
Definition conversation_grows (w0 w : World) : Prop :=
  history w0.1 `prefix_of` history w.1.

(** The storage is the same outside the slot of the credential. *)
Definition other_keys_kept (w0 w : World) : Prop :=
  forall key : jsstr,
    key <> storage_key -> localStorage w.1 !! key = localStorage w0.1 !! key.

(** As many requests were issued as the conversation has user turns. *)
Definition one_request_per_turn (w : World) : Prop :=
  length (requests w.2) = user_turns (history w.1).


(** The network rejects with errors that show as something: an [Error] of
    the runtime has a name. *)
Definition rejections_show (env : Env) : Prop :=
  (forall (req : Request) (err : JsError),
      env req = Rejected err -> error_text err <> [])
  /\ (forall (req : Request) (resp : Response) (err : JsError),
        env req = Fulfilled resp ->
        body_text resp = Rejected err \/ body_json resp = Rejected err ->
        error_text err <> []).

(** ** The scroll script *)

(** What [revealOnScroll] reads of an element of [reveals] when it visits
    it: the top of its bounding rectangle, and whether it contains an
    element of class [counter]. *)
Record Measure := {
  top : QArith_base.Q;
  contains_counter : bool
}.

(** The state the script keeps: for each element of [reveals] whether its
    class list holds [active], the flag [hasCounted], and how many times
    [initCounters] was called (its animation is not modelled). *)
Record Page := {
  active : list bool;
  hasCounted : bool;
  initCounters_calls : nat
}.

Definition elementVisible : Z := 80.

(** [elementTop < windowHeight - elementVisible]. *)
Definition above_fold (windowHeight : Z) (m : Measure) : bool :=
  if QArith_base.Qlt_le_dec (top m)
       (QArith_base.inject_Z (windowHeight - elementVisible))
  then true else false.

(** The [forEach] of [revealOnScroll] from the element of index [i] on. *)
Fixpoint reveal_each (windowHeight : Z) (measure : nat -> Measure) (i : nat)
    (flags : list bool) (counted : bool) (calls : nat)
  : list bool * bool * nat :=
  match flags with
  | [] => ([], counted, calls)
  | flag :: rest =>
      if above_fold windowHeight (measure i) then
        let start := contains_counter (measure i) && negb counted in
        let '(rest', counted', calls') :=
          reveal_each windowHeight measure (S i) rest
            (if start then true else counted)
            (if start then S calls else calls) in
        (true :: rest', counted', calls')
      else
        let '(rest', counted', calls') :=
          reveal_each windowHeight measure (S i) rest counted calls in
        (flag :: rest', counted', calls')
  end.

(** One run of [revealOnScroll], with the window height and the
    measurements of that run. *)
Definition revealOnScroll (windowHeight : Z) (measure : nat -> Measure)
    (pg : Page) : Page :=
  let '(flags, counted, calls) :=
    reveal_each windowHeight measure 0 (active pg) (hasCounted pg)
      (initCounters_calls pg) in
  {| active := flags; hasCounted := counted; initCounters_calls := calls |}.

(** The page when the script starts, [classes] telling which elements
    already have the class. *)
Definition page_loaded (classes : list bool) : Page :=
  {| active := classes; hasCounted := false; initCounters_calls := 0 |}.

(** The first run and the runs of the scroll events after it. *)
Definition scrolled (runs : list (Z * (nat -> Measure))) (pg : Page) : Page :=
  fold_left (fun pg run => revealOnScroll run.1 run.2 pg) runs pg.

(** * Properties *)

(** ** Strings *)

Lemma is_empty_false (s : jsstr) : s <> [] -> is_empty s = false.
Proof. by destruct s. Qed.

Lemma is_empty_true (s : jsstr) : s = [] -> is_empty s = true.
Proof. by intros ->. Qed.

Lemma slice0_take (s : jsstr) (n : Z) :
  (0 <= n)%Z -> slice0 s n = take (Z.to_nat n) s.
Proof.
  intros Hn. unfold slice0.
  destruct (Z.ltb_spec n 0) as [Hneg | _]; [lia |].
  destruct (Z.le_ge_cases n (Z.of_nat (length s))) as [Hle | Hge].
  - by rewrite Z.min_l.
  - rewrite Z.min_r, Nat2Z.id by done.
    rewrite !take_ge; [done | lia | done].
Qed.

Example trim_both_ends :
  trim ([9; 32; 12288]%N ++ lit "a b" ++ [10; 13; 160]%N) = lit "a b".
Proof. reflexivity. Qed.

Example trim_blank : trim (lit "   ") = [].
Proof. reflexivity. Qed.

Example number_to_string_401 : number_to_string 401 = lit "401".
Proof. reflexivity. Qed.

Example join_three : join newline [lit "a"; []; lit "b"] = lit "a" ++ [10; 10]%N ++ lit "b".
Proof. reflexivity. Qed.

Example completion_content_hello :
  completion_content hello_data = Some (JStr (lit "Hello")).
Proof. reflexivity. Qed.

Example completion_content_null :
  completion_content
    (JObj [(lit "choices", JArr [JObj [(lit "message", JNull)]])]) = None.
Proof. reflexivity. Qed.

Example completion_content_no_choices :
  completion_content (JObj [(lit "error", JStr (lit "overloaded"))]) = None.
Proof. reflexivity. Qed.

(** ** [safeShort] *)

Section SafeShort.
Variables (s : jsstr) (n : Z).
Hypothesis bound_nonneg : (0 <= n)%Z.

Lemma safeShort_short : (Z.of_nat (length s) <= n)%Z -> safeShort s n = s.
Proof.
  intros Hle. unfold safeShort.
  destruct s as [| c rest] eqn:Hs; [done |]. simpl is_empty.
  destruct (Z.gtb_spec (Z.of_nat (length (c :: rest))) n); [lia | done].
Qed.

Lemma safeShort_long :
  (n < Z.of_nat (length s))%Z ->
  safeShort s n = take (Z.to_nat n) s ++ ellipsis.
Proof.
  intros Hlt. unfold safeShort.
  destruct s as [| c rest] eqn:Hs; [simpl in Hlt; lia |]. simpl is_empty.
  destruct (Z.gtb_spec (Z.of_nat (length (c :: rest))) n); [| lia].
  by rewrite slice0_take.
Qed.

Lemma safeShort_long_length :
  (n < Z.of_nat (length s))%Z ->
  Z.of_nat (length (safeShort s n)) = (n + 1)%Z.
Proof.
  intros Hlt. rewrite safeShort_long by done.
  rewrite length_app, length_take. simpl. lia.
Qed.
End SafeShort.

(** C10. For every string [s] and every bound [n], a count of code units,
    [safeShort(s, n)] is defined (nothing in the function throws: it is
    total), it is [s] itself when [s] has at most [n] code units, and
    otherwise it is the first [n] code units of [s] followed by the one-unit
    ellipsis; so the result has at most [n + 1] code units. *)
Theorem safeShort_spec (s : jsstr) (n : nat) :
  (length s <= n -> safeShort s (Z.of_nat n) = s)
  /\ (n < length s ->
      safeShort s (Z.of_nat n) = take n s ++ [8230%N]
      /\ length (safeShort s (Z.of_nat n)) = n + 1)
  /\ length (safeShort s (Z.of_nat n)) <= n + 1.
Proof.
  assert (0 <= Z.of_nat n)%Z as Hn by lia.
  split; [| split].
  - intros Hle. apply safeShort_short. lia.
  - intros Hlt.
    pose proof (safeShort_long s _ Hn ltac:(lia)) as Heq.
    pose proof (safeShort_long_length s _ Hn ltac:(lia)) as Hlen.
    rewrite Nat2Z.id in Heq. split; [exact Heq | lia].
  - destruct (Nat.le_gt_cases (length s) n) as [Hle | Hlt].
    + rewrite safeShort_short by lia. lia.
    + pose proof (safeShort_long_length s _ Hn ltac:(lia)). lia.
Qed.

Lemma safeShort_spec_witness :
  safeShort (lit "ab") 3 = lit "ab"
  /\ safeShort (lit "abcdef") 3 = lit "abc" ++ [8230%N]
  /\ length (safeShort (lit "abcdef") 3) <= 3 + 1.
Proof.
  split; [| split].
  - apply (safeShort_spec (lit "ab") 3). simpl. lia.
  - apply (safeShort_spec (lit "abcdef") 3). simpl. lia.
  - apply (safeShort_spec (lit "abcdef") 3).
Defined.

(** With the default bound the excerpt has at most 301 code units. *)
Lemma safeShort_default_length (s : jsstr) :
  length (safeShort s safeShort_default_n) <= 301.
Proof.
  unfold safeShort_default_n.
  destruct (Nat.le_gt_cases (length s) 300) as [Hle | Hlt].
  - rewrite safeShort_short by lia. lia.
  - pose proof (safeShort_long_length s 300 ltac:(lia) ltac:(lia)). lia.
Qed.

(** A negative [n] is no count: [slice] then counts from the end of the
    string. *)
Example safeShort_negative_bound :
  safeShort (lit "abc") (-1) = lit "ab" ++ ellipsis.
Proof. reflexivity. Qed.

(** ** [toOpenAIMessages] *)

Lemma join_single (sep x : jsstr) : join sep [x] = x.
Proof. reflexivity. Qed.

Lemma join_cons (sep x y : jsstr) (rest : list jsstr) :
  join sep (x :: y :: rest) = x ++ sep ++ join sep (y :: rest).
Proof. reflexivity. Qed.

Lemma toOpenAIMessages_length (h : list ChatMsg) :
  length (toOpenAIMessages h) = length h.
Proof. unfold toOpenAIMessages. apply length_map. Qed.

Lemma toOpenAIMessages_lookup (h : list ChatMsg) (i : nat) :
  toOpenAIMessages h !! i
  = (fun msg => {| api_role := match role msg with
                               | Model => lit "assistant"
                               | User => lit "user"
                               end;
                   content := join newline (map text (parts msg)) |}) <$> h !! i.
Proof. unfold toOpenAIMessages. apply list_lookup_fmap. Qed.

Lemma toOpenAIMessages_app (h1 h2 : list ChatMsg) :
  toOpenAIMessages (h1 ++ h2) = toOpenAIMessages h1 ++ toOpenAIMessages h2.
Proof. unfold toOpenAIMessages. apply map_app. Qed.

(** C3. The transformer is a total function that maps a conversation of
    length [N] to a sequence of length [N] in the same order: the entry at
    each index comes from the message at that index, the internal role
    [Model] becomes ["assistant"], the role [User] stays ["user"], and the
    content is the texts of the parts joined with newlines, so the text
    itself for a message of one part. *)
Theorem toOpenAIMessages_spec (h : list ChatMsg) :
  length (toOpenAIMessages h) = length h
  /\ forall (i : nat) (msg : ChatMsg),
      h !! i = Some msg ->
      exists out : ApiMsg,
        toOpenAIMessages h !! i = Some out
        /\ (role msg = Model -> api_role out = lit "assistant")
        /\ (role msg = User -> api_role out = lit "user")
        /\ content out = join [10%N] (map text (parts msg))
        /\ (forall p : Part, parts msg = [p] -> content out = text p)
        /\ (forall (p q : Part) (rest : list Part),
              parts msg = p :: q :: rest ->
              content out = text p ++ [10%N] ++ join [10%N] (map text (q :: rest))).
Proof.
  split; [apply toOpenAIMessages_length |].
  intros i msg Hi. rewrite toOpenAIMessages_lookup, Hi. simpl.
  eexists. split; [reflexivity |]. simpl.
  repeat split.
  - by intros ->.
  - by intros ->.
  - by intros p ->.
  - by intros p q rest ->.
Qed.

Lemma toOpenAIMessages_spec_witness :
  exists out : ApiMsg,
    toOpenAIMessages
      [ {| role := User; parts := [ {| text := lit "hi" |} ] |};
        {| role := Model;
           parts := [ {| text := lit "a" |}; {| text := lit "b" |} ] |} ] !! 1
    = Some out
    /\ api_role out = lit "assistant"
    /\ content out = lit "a" ++ [10%N] ++ lit "b".
Proof.
  destruct (toOpenAIMessages_spec
    [ {| role := User; parts := [ {| text := lit "hi" |} ] |};
      {| role := Model;
         parts := [ {| text := lit "a" |}; {| text := lit "b" |} ] |} ])
    as [_ H].
  destruct (H 1 _ eq_refl) as (out & Hout & Hrole & _ & Hjoin & _).
  exists out. split; [exact Hout |]. split; [by apply Hrole |].
  rewrite Hjoin. reflexivity.
Defined.

(** ** [sendMessage] *)

(** The guards of a call that is dispatched. *)
Ltac dispatch Hcontent Hloading Hkey :=
  unfold send, sendMessage;
  rewrite (is_empty_false _ Hcontent), Hloading, (is_empty_false _ Hkey);
  simpl orb; cbv iota.

(** Run a program as far as its next case distinction. *)
Ltac run :=
  cbn [exec bind try_catch try_finally call await settle apply_effect answering
       trace final completion negb requests is_network
       model history input apiKey rememberKey loading error localStorage].

Section Dispatched.
Variables (env : Env) (st : State) (message : option jsstr).

(** The text sent: [(message ?? input).trim()]. *)
Let content : jsstr := trim (default (input st) message).

(** The request of the call. *)
Let req : Request :=
  completions_request (apiKey st) (model st)
    (toOpenAIMessages (history st ++ [user_msg content])).

(** What the call does before it suspends. *)
Let prefix : list Event :=
  [called (setError []); called (setLoading true);
   called (setHistory (history st ++ [user_msg content]));
   called (setInput []); awaited (fetch req)].

Hypothesis content_nonempty : content <> [].
Hypothesis idle : loading st = false.
Hypothesis key_present : apiKey st <> [].

Let r : Run unit := exec env (sendMessage st message) st.

Lemma dispatched_prefix :
  exists rest : list Event,
    trace r = prefix ++ rest /\ requests (trace r) = [req].
Proof.
  subst r prefix req content. dispatch content_nonempty idle key_present. run.
  eexists. split; [reflexivity |].
  destruct (env _) as [resp | err]; run; [| reflexivity].
  destruct (ok resp); run.
  - destruct (body_json resp); reflexivity.
  - destruct (body_text resp); reflexivity.
Qed.

(** The call suspends at [fetch] with the user message in the store. *)
Lemma dispatched_suspends :
  exists k : Settled Response -> Prog unit,
    run_sync (sendMessage st message) st
    = (prefix,
       {| model := model st; history := history st ++ [user_msg content];
          input := []; apiKey := apiKey st; rememberKey := rememberKey st;
          loading := true; error := []; localStorage := localStorage st |},
       Some (Suspended (fetch req) k)).
Proof.
  subst prefix req content. dispatch content_nonempty idle key_present.
  eexists. reflexivity.
Qed.

Lemma dispatched_history :
  exists tail : list ChatMsg,
    history (final r) = history st ++ user_msg content :: tail
    /\ Forall (fun msg => role msg = Model) tail.
Proof.
  subst r content. dispatch content_nonempty idle key_present. run.
  destruct (env _) as [resp | err]; run; [| by exists []].
  destruct (ok resp); run.
  - destruct (body_json resp) as [data | err]; run; [| by exists []].
    eexists [_]. rewrite <- app_assoc. split; [reflexivity |].
    by constructor.
  - destruct (body_text resp); run; by exists [].
Qed.

Lemma dispatched_settles :
  loading (final r) = false
  /\ completion r = Normal tt
  /\ last (trace r) = Some (called (setLoading false)).
Proof.
  subst r content. dispatch content_nonempty idle key_present. run.
  destruct (env _) as [resp | err]; run; [| done].
  destruct (ok resp); run.
  - by destruct (body_json resp).
  - by destruct (body_text resp).
Qed.
End Dispatched.

(** C1. When the text is non-empty after trimming, no request is in flight
    and the credential is non-empty, a send calls [setHistory] with the
    conversation extended by one user message holding the trimmed text, and
    only setter calls precede the [fetch]: the call suspends at the [fetch]
    with that message already in the store.  The run issues exactly one
    request, which carries the transformed extended history and the model,
    and whatever the outcome the conversation is the old one, the user
    message and nothing but model messages after it. *)
Theorem send_appends_user_message_first
    (env : Env) (st : State) (message : option jsstr) :
  trim (default (input st) message) <> [] ->
  loading st = false ->
  apiKey st <> [] ->
  exists (rest : list Event) (tail : list ChatMsg)
         (k : Settled Response -> Prog unit) (st' : State),
    trace (exec env (sendMessage st message) st)
    = [called (setError []); called (setLoading true);
       called (setHistory
                 (history st ++ [user_msg (trim (default (input st) message))]));
       called (setInput []);
       awaited (fetch (completions_request (apiKey st) (model st)
                         (toOpenAIMessages
                            (history st
                             ++ [user_msg (trim (default (input st) message))]))))]
      ++ rest
    /\ requests (trace (exec env (sendMessage st message) st))
       = [completions_request (apiKey st) (model st)
            (toOpenAIMessages
               (history st ++ [user_msg (trim (default (input st) message))]))]
    /\ snd (run_sync (sendMessage st message) st)
       = Some (Suspended
                 (fetch (completions_request (apiKey st) (model st)
                           (toOpenAIMessages
                              (history st
                               ++ [user_msg (trim (default (input st) message))]))))
                 k)
    /\ snd (fst (run_sync (sendMessage st message) st)) = st'
    /\ history st' = history st ++ [user_msg (trim (default (input st) message))]
    /\ loading st' = true
    /\ history (final (exec env (sendMessage st message) st))
       = history st ++ user_msg (trim (default (input st) message)) :: tail
    /\ Forall (fun msg => role msg = Model) tail.
Proof.
  intros Hcontent Hidle Hkey.
  destruct (dispatched_prefix env st message Hcontent Hidle Hkey)
    as (rest & Htrace & Hreqs).
  destruct (dispatched_history env st message Hcontent Hidle Hkey)
    as (tail & Hhistory & Htail).
  destruct (dispatched_suspends st message Hcontent Hidle Hkey) as (k & Hsync).
  exists rest, tail, k. eexists.
  rewrite Hsync. repeat split; try eassumption; reflexivity.
Qed.

Lemma send_appends_user_message_first_witness :
  exists rest : list Event,
    trace (exec (answering hello_response)
             (sendMessage sample_state (Some (lit "  hi "))) sample_state)
    = [called (setError []); called (setLoading true);
       called (setHistory [model_msg greeting; user_msg (lit "hi")]);
       called (setInput []);
       awaited (fetch (completions_request (lit "sk-demo") (lit "gpt-5")
                         (toOpenAIMessages
                            [model_msg greeting; user_msg (lit "hi")])))]
      ++ rest.
Proof.
  destruct (send_appends_user_message_first (answering hello_response)
              sample_state (Some (lit "  hi ")))
    as (rest & _ & _ & _ & Htrace & _);
    [vm_compute; discriminate | reflexivity | vm_compute; discriminate |].
  exists rest. exact Htrace.
Defined.

(** C7. A dispatched call ends with the flag cleared whatever the
    environment does: the transport fails ([fetch] rejects), the status is
    not a success (the [throw] is caught), the body cannot be read or
    parsed, or the completion arrives.  The last thing the call does is
    [setLoading(false)], and nothing escapes it. *)
Theorem send_clears_loading (env : Env) (st : State) (message : option jsstr) :
  trim (default (input st) message) <> [] ->
  loading st = false ->
  apiKey st <> [] ->
  loading (final (exec env (sendMessage st message) st)) = false
  /\ completion (exec env (sendMessage st message) st) = Normal tt
  /\ last (trace (exec env (sendMessage st message) st))
     = Some (called (setLoading false)).
Proof. apply dispatched_settles. Qed.

Lemma send_clears_loading_witness :
  loading (final (exec offline (sendMessage sample_state (Some (lit "hi")))
                    sample_state)) = false
  /\ loading (final (exec (answering unauthorized_response)
                       (sendMessage sample_state (Some (lit "hi")))
                       sample_state)) = false
  /\ loading (final (exec (answering hello_response)
                       (sendMessage sample_state (Some (lit "hi")))
                       sample_state)) = false.
Proof.
  split; [| split].
  - apply (send_clears_loading offline sample_state (Some (lit "hi")));
      [vm_compute; discriminate | reflexivity | vm_compute; discriminate].
  - apply (send_clears_loading (answering unauthorized_response) sample_state
             (Some (lit "hi")));
      [vm_compute; discriminate | reflexivity | vm_compute; discriminate].
  - apply (send_clears_loading (answering hello_response) sample_state
             (Some (lit "hi")));
      [vm_compute; discriminate | reflexivity | vm_compute; discriminate].
Defined.

(** *** The outcomes of an answered request *)

Lemma http_error_prefix_nonempty (status : N) (excerpt : jsstr) :
  http_error_prefix status ++ excerpt <> [].
Proof. unfold http_error_prefix. cbn. discriminate. Qed.

(** A thrown [Error] with a non-empty message shows as its message. *)
Lemma error_text_new_Error (msg : jsstr) :
  msg <> [] -> error_text (new_Error msg) = msg.
Proof. intros Hmsg. unfold error_text. cbn [new_Error message]. by destruct msg. Qed.

Section Answered.
Variables (st : State) (message : option jsstr) (resp : Response).

Let content : jsstr := trim (default (input st) message).

Hypothesis content_nonempty : content <> [].
Hypothesis idle : loading st = false.
Hypothesis key_present : apiKey st <> [].

Let r : Run unit := exec (answering resp) (sendMessage st message) st.

(** A status outside 200..299: the user message stays, the flag is
    cleared, and no model message is appended. *)
Lemma failure_keeps_user_message :
  ok resp = false ->
  history (final r) = history st ++ [user_msg content]
  /\ loading (final r) = false.
Proof.
  intros Hok. subst r content. dispatch content_nonempty idle key_present.
  run. rewrite Hok. run. by destruct (body_text resp).
Qed.

Lemma failure_error (errText : jsstr) :
  ok resp = false ->
  body_text resp = Fulfilled errText ->
  error (final r)
  = http_error_prefix (status resp) ++ safeShort errText safeShort_default_n.
Proof.
  intros Hok Htext. subst r content.
  dispatch content_nonempty idle key_present.
  run. rewrite Hok. run. rewrite Htext. run.
  apply error_text_new_Error, http_error_prefix_nonempty.
Qed.

(** A success status with a parsed body: the reply is appended after the
    user message and no error is set. *)
Lemma success_appends_reply (data : json) :
  ok resp = true ->
  body_json resp = Fulfilled data ->
  history (final r)
  = history st
    ++ [user_msg content;
        model_msg (read_as_text (nullish (completion_content data)
                                   (JStr no_content)))]
  /\ error (final r) = []
  /\ loading (final r) = false.
Proof.
  intros Hok Hjson. subst r content.
  dispatch content_nonempty idle key_present.
  run. rewrite Hok. run. rewrite Hjson. run.
  by rewrite <- app_assoc.
Qed.
End Answered.

(** C2, as the code has it.  After a send answered with a status that is not
    a success, the conversation still ends with the optimistic user message
    and the flag is cleared.  When the body text is read, the stored error
    is non-empty: it is the fixed text with the status, followed by the
    excerpt [safeShort] makes of the body, and it is the excerpt that is
    bounded, by the truncation bound plus one for the ellipsis. *)
Theorem send_http_failure
    (st : State) (message : option jsstr) (resp : Response) :
  trim (default (input st) message) <> [] ->
  loading st = false ->
  apiKey st <> [] ->
  ok resp = false ->
  history (final (exec (answering resp) (sendMessage st message) st))
  = history st ++ [user_msg (trim (default (input st) message))]
  /\ loading (final (exec (answering resp) (sendMessage st message) st)) = false
  /\ forall errText : jsstr,
      body_text resp = Fulfilled errText ->
      error (final (exec (answering resp) (sendMessage st message) st))
      = http_error_prefix (status resp) ++ safeShort errText 300
      /\ error (final (exec (answering resp) (sendMessage st message) st)) <> []
      /\ length (safeShort errText 300) <= 300 + 1
      /\ length (error (final (exec (answering resp) (sendMessage st message) st)))
         <= length (http_error_prefix (status resp)) + (300 + 1).
Proof.
  intros Hcontent Hidle Hkey Hok.
  destruct (failure_keeps_user_message st message resp Hcontent Hidle Hkey Hok)
    as [Hhistory Hloading].
  split; [exact Hhistory |]. split; [exact Hloading |].
  intros errText Htext.
  rewrite (failure_error st message resp Hcontent Hidle Hkey errText Hok Htext).
  pose proof (safeShort_default_length errText) as Hlen.
  unfold safeShort_default_n in *.
  split; [reflexivity |].
  split; [apply http_error_prefix_nonempty |].
  split; [lia |].
  rewrite length_app. lia.
Qed.

Lemma send_http_failure_witness :
  history (final (send (answering unauthorized_response) (lit "hi") sample_state))
  = [model_msg greeting; user_msg (lit "hi")]
  /\ loading (final (send (answering unauthorized_response) (lit "hi")
                       sample_state)) = false.
Proof.
  destruct (send_http_failure sample_state (Some (lit "hi")) unauthorized_response)
    as (Hhistory & Hloading & _);
    [vm_compute; discriminate | reflexivity | vm_compute; discriminate
    | reflexivity |].
  split; [exact Hhistory | exact Hloading].
Defined.

(** C2 as stated fails: a 401 whose body has 301 code units leaves an error
    of 325 code units, above the truncation bound of 300. *)
Lemma http_error_exceeds_truncation_bound :
  ok verbose_response = false
  /\ length (error (final (send (answering verbose_response) (lit "hi")
                             sample_state))) = 325
  /\ ~ (Z.of_nat (length (error (final (send (answering verbose_response)
                                          (lit "hi") sample_state))))
        <= safeShort_default_n)%Z.
Proof.
  split; [reflexivity |].
  assert (length (error (final (send (answering verbose_response) (lit "hi")
                                  sample_state))) = 325) as Hlen
    by (vm_compute; reflexivity).
  split; [exact Hlen |]. rewrite Hlen. unfold safeShort_default_n. lia.
Qed.

(** C6. A send of ["hi"] answered with a success whose first completion has
    the text ["Hello"] leaves the conversation extended by exactly two
    entries: the user message ["hi"], then the model message ["Hello"]. *)
Theorem send_hi_answered_hello (st : State) (resp : Response) (data : json) :
  loading st = false ->
  apiKey st <> [] ->
  ok resp = true ->
  body_json resp = Fulfilled data ->
  completion_content data = Some (JStr (lit "Hello")) ->
  history (final (send (answering resp) (lit "hi") st))
  = history st ++ [ {| role := User; parts := [ {| text := lit "hi" |} ] |};
                    {| role := Model; parts := [ {| text := lit "Hello" |} ] |} ].
Proof.
  intros Hidle Hkey Hok Hjson Hcontent.
  assert (trim (default (input st) (Some (lit "hi"))) <> []) as Hhi
    by (vm_compute; discriminate).
  destruct (success_appends_reply st (Some (lit "hi")) resp Hhi Hidle Hkey
              data Hok Hjson) as (Hhistory & _).
  unfold send. rewrite Hhistory, Hcontent. reflexivity.
Qed.

Lemma send_hi_answered_hello_witness :
  history (final (send (answering hello_response) (lit "hi") sample_state))
  = [model_msg greeting; user_msg (lit "hi"); model_msg (lit "Hello")].
Proof.
  apply (send_hi_answered_hello sample_state hello_response hello_data);
    [reflexivity | vm_compute; discriminate | reflexivity | reflexivity
    | reflexivity].
Defined.

(** C8. A success whose body has no content at
    [choices[0].message.content] is not an error: the placeholder
    ["[No content]"] is appended as a model message after the user message
    and the error stays empty. *)
Theorem send_absent_content_placeholder
    (st : State) (message : option jsstr) (resp : Response) (data : json) :
  trim (default (input st) message) <> [] ->
  loading st = false ->
  apiKey st <> [] ->
  ok resp = true ->
  body_json resp = Fulfilled data ->
  completion_content data = None ->
  history (final (exec (answering resp) (sendMessage st message) st))
  = history st ++ [user_msg (trim (default (input st) message));
                   {| role := Model;
                      parts := [ {| text := lit "[No content]" |} ] |}]
  /\ error (final (exec (answering resp) (sendMessage st message) st)) = []
  /\ completion (exec (answering resp) (sendMessage st message) st) = Normal tt.
Proof.
  intros Hcontent Hidle Hkey Hok Hjson Habsent.
  destruct (success_appends_reply st message resp Hcontent Hidle Hkey
              data Hok Hjson) as (Hhistory & Herror & _).
  rewrite Hhistory, Herror, Habsent.
  repeat split.
  by apply dispatched_settles.
Qed.

Lemma send_absent_content_placeholder_witness :
  history (final (send (answering bare_response) (lit "hi") sample_state))
  = [model_msg greeting; user_msg (lit "hi"); model_msg (lit "[No content]")]
  /\ error (final (send (answering bare_response) (lit "hi") sample_state)) = [].
Proof.
  destruct (send_absent_content_placeholder sample_state (Some (lit "hi"))
              bare_response bare_data)
    as (Hhistory & Herror & _);
    [vm_compute; discriminate | reflexivity | vm_compute; discriminate
    | reflexivity | reflexivity | reflexivity |].
  split; [exact Hhistory | exact Herror].
Defined.

(** ** Guards of [sendMessage] *)

Lemma sendMessage_busy (st : State) (message : option jsstr) :
  loading st = true -> sendMessage st message = Return tt.
Proof.
  intros Hbusy. unfold sendMessage. rewrite Hbusy.
  by rewrite orb_true_r.
Qed.

Lemma sendMessage_blank (st : State) (message : option jsstr) :
  trim (default (input st) message) = [] -> sendMessage st message = Return tt.
Proof. intros Hblank. unfold sendMessage. by rewrite Hblank. Qed.

Lemma sendMessage_keyless (st : State) (message : option jsstr) :
  trim (default (input st) message) <> [] ->
  loading st = false ->
  apiKey st = [] ->
  sendMessage st message = Do (setError missing_key_message) (Return tt).
Proof.
  intros Hcontent Hidle Hkey. unfold sendMessage.
  by rewrite (is_empty_false _ Hcontent), Hidle, Hkey.
Qed.

(** C4, as the code has it.  When the text is non-empty after trimming, the
    credential is empty and no request is in flight, a send makes no
    network call, sets the (non-empty) missing-key error and leaves the
    conversation unchanged. *)
Theorem send_without_key (env : Env) (st : State) (message : option jsstr) :
  trim (default (input st) message) <> [] ->
  apiKey st = [] ->
  loading st = false ->
  trace (exec env (sendMessage st message) st)
  = [called (setError missing_key_message)]
  /\ requests (trace (exec env (sendMessage st message) st)) = []
  /\ error (final (exec env (sendMessage st message) st)) = missing_key_message
  /\ error (final (exec env (sendMessage st message) st)) <> []
  /\ history (final (exec env (sendMessage st message) st)) = history st
  /\ snd (run_sync (sendMessage st message) st) = None.
Proof.
  intros Hcontent Hkey Hidle.
  rewrite (sendMessage_keyless st message Hcontent Hidle Hkey). run.
  repeat split. vm_compute. discriminate.
Qed.

Lemma send_without_key_witness :
  error (final (send offline (lit "hi") (first_render (lit "gpt-5") ∅)))
  = missing_key_message
  /\ history (final (send offline (lit "hi") (first_render (lit "gpt-5") ∅))) = [].
Proof.
  destruct (send_without_key offline (first_render (lit "gpt-5") ∅)
              (Some (lit "hi")))
    as (_ & _ & Herror & _ & Hhistory & _);
    [vm_compute; discriminate | reflexivity | reflexivity |].
  split; [exact Herror | exact Hhistory].
Defined.

(** C4 as stated fails while a request is in flight: the first guard
    returns before the key is looked at, and no error is set.  The state is
    one the component reaches. *)
Lemma send_without_key_in_flight_sets_no_error :
  reachable keyless_in_flight
  /\ apiKey (store keyless_in_flight) = []
  /\ trim (lit "hi") <> []
  /\ error (final (send offline (lit "hi") (store keyless_in_flight))) = []
  /\ ~ (error (final (send offline (lit "hi") (store keyless_in_flight))) <> []).
Proof.
  split.
  { unfold keyless_in_flight, request_in_flight, after_user.
    do 3 (eapply reach_step; [| apply step_user]). apply reach_mounted. }
  assert (error (final (send offline (lit "hi") (store keyless_in_flight))) = [])
    as Herror by (vm_compute; reflexivity).
  split; [vm_compute; reflexivity |].
  split; [vm_compute; discriminate |].
  split; [exact Herror |]. intros Hne. by apply Hne.
Qed.

(** ** The credential handlers *)

(** C9. Unticking the check box removes the stored credential; ticking it
    while the credential in memory is non-empty writes that credential to
    the slot; and while the box is ticked every edit of the credential
    writes the new value to the slot (and sets it in memory). *)
Theorem credential_persistence (env : Env) (st : State) :
  localStorage (final (exec env (rememberKey_onChange st false) st))
    !! storage_key = None
  /\ (apiKey st <> [] ->
      localStorage (final (exec env (rememberKey_onChange st true) st))
        !! storage_key = Some (apiKey st))
  /\ (rememberKey st = true ->
      forall v : jsstr,
        localStorage (final (exec env (apiKey_onChange st v) st))
          !! storage_key = Some v
        /\ apiKey (final (exec env (apiKey_onChange st v) st)) = v).
Proof.
  split; [| split].
  - unfold rememberKey_onChange. run. apply lookup_delete_eq.
  - intros Hkey. unfold rememberKey_onChange.
    rewrite (is_empty_false _ Hkey). run. apply lookup_insert_eq.
  - intros Hremember v. unfold apiKey_onChange. rewrite Hremember. run.
    split; [apply lookup_insert_eq | reflexivity].
Qed.

Lemma credential_persistence_witness :
  localStorage (final (exec offline (rememberKey_onChange sample_state true)
                         sample_state)) !! storage_key
  = Some (lit "sk-demo")
  /\ localStorage (final (exec offline (apiKey_onChange sample_state (lit "sk-2"))
                            sample_state)) !! storage_key
     = Some (lit "sk-2").
Proof.
  destruct (credential_persistence offline sample_state) as (_ & Hon & Hedit).
  split.
  - apply Hon. vm_compute. discriminate.
  - apply Hedit. reflexivity.
Defined.

(** ** One request at a time *)

Lemma loading_apply_effect (eff : Effect) (st : State) :
  loading (apply_effect eff st)
  = match eff with setLoading b => b | _ => loading st end.
Proof. by destruct eff. Qed.

Lemma run_sync_settles (m : Prog unit) :
  forall (flag : bool) (st : State),
    settles flag m ->
    loading st = flag ->
    match run_sync m st with
    | (_, st', None) => loading st' = false
    | (_, st', Some t) => loading st' = true /\ task_ok t
    end.
Proof.
  induction m as [a | err | eff m IH | X p k IH]; intros flag st Hm Hflag.
  - cbn in *. congruence.
  - cbn in *. congruence.
  - cbn [run_sync]. cbn [settles] in Hm.
    specialize (IH _ (apply_effect eff st) Hm).
    rewrite loading_apply_effect in IH.
    destruct (run_sync m (apply_effect eff st)) as [[tr st'] t].
    apply IH. by destruct eff.
  - cbn in *. destruct Hm as [-> Hk]. by split.
Qed.

Lemma run_sync_quiet (m : Prog unit) :
  forall st : State,
    quiet m ->
    snd (run_sync m st) = None
    /\ loading (snd (fst (run_sync m st))) = loading st.
Proof.
  induction m as [a | err | eff m IH | X p k IH]; intros st Hm.
  - by cbn.
  - by cbn.
  - cbn [run_sync].
    assert (quiet m /\ loading (apply_effect eff st) = loading st) as [Hq Hl]
      by (rewrite loading_apply_effect; by destruct eff).
    specialize (IH (apply_effect eff st) Hq).
    destruct (run_sync m (apply_effect eff st)) as [[tr st'] t].
    cbn in *. by rewrite <- Hl.
  - destruct Hm.
Qed.

Lemma sendMessage_settles (st : State) (message : option jsstr) :
  loading st = false -> settles false (sendMessage st message).
Proof.
  intros Hidle. unfold sendMessage. rewrite Hidle, orb_false_r.
  destruct (is_empty (trim _)); [done |].
  destruct (is_empty (apiKey st)); [done |].
  cbn [settles bind try_catch try_finally call await]. split; [done |].
  intros [resp | err]; cbn [settles bind try_catch try_finally call]; [| done].
  destruct (ok resp); cbn [settles bind try_catch try_finally call await negb].
  - split; [done |]. by intros [data | err].
  - split; [done |]. by intros [errText | err].
Qed.

Lemma handler_busy (st : State) (ev : UserEvent) :
  loading st = true -> quiet (handler st ev).
Proof.
  intros Hbusy.
  destruct ev as [| q | v | checked | v | v]; cbn [handler].
  - by rewrite sendMessage_busy.
  - by rewrite sendMessage_busy.
  - unfold apiKey_onChange. by destruct (rememberKey st).
  - unfold rememberKey_onChange.
    by destruct checked, (is_empty (apiKey st)).
  - done.
  - done.
Qed.

Lemma handler_idle (st : State) (ev : UserEvent) :
  loading st = false ->
  quiet (handler st ev) \/ settles false (handler st ev).
Proof.
  intros Hidle.
  destruct ev as [| q | v | checked | v | v]; cbn [handler].
  - right. by apply sendMessage_settles.
  - right. by apply sendMessage_settles.
  - left. unfold apiKey_onChange. by destruct (rememberKey st).
  - left. unfold rememberKey_onChange.
    by destruct checked, (is_empty (apiKey st)).
  - by left.
  - by left.
Qed.

Lemma advance_quiet (m : Prog unit) (others : list Task) (cfg : Config) :
  quiet m ->
  pending (advance m others cfg) = others
  /\ loading (store (advance m others cfg)) = loading (store cfg).
Proof.
  intros Hm. destruct (run_sync_quiet m (store cfg) Hm) as [Ht Hl].
  unfold advance. destruct (run_sync m (store cfg)) as [[tr st'] t].
  cbn in *. subst t. by rewrite app_nil_r.
Qed.

Lemma advance_settles (m : Prog unit) (cfg : Config) (flag : bool) :
  settles flag m ->
  loading (store cfg) = flag ->
  one_in_flight (advance m [] cfg).
Proof.
  intros Hm Hflag. pose proof (run_sync_settles m flag (store cfg) Hm Hflag) as H.
  unfold one_in_flight, advance.
  destruct (run_sync m (store cfg)) as [[tr st'] [t |]]; by cbn.
Qed.

Lemma advance_return (others : list Task) (cfg : Config) :
  others = pending cfg -> advance (Return tt) others cfg = cfg.
Proof.
  intros ->. destruct cfg as [st tasks events]. unfold advance. cbn.
  by rewrite !app_nil_r.
Qed.

Lemma mounted_idle (defaultModel starter : jsstr) (ls : gmap jsstr jsstr) :
  one_in_flight (mounted defaultModel starter ls).
Proof.
  unfold mounted, load_saved_key. cbn [localStorage first_render].
  destruct (ls !! storage_key) as [[| c saved] |], starter; reflexivity.
Qed.

Lemma step_one_in_flight (cfg cfg' : Config) :
  step cfg cfg' -> one_in_flight cfg -> one_in_flight cfg'.
Proof.
  intros Hstep Hinv.
  destruct Hstep as [cfg ev | cfg X p k before after env Hpending].
  - unfold one_in_flight in Hinv.
    destruct (pending cfg) as [| t [| t' tasks]] eqn:Hp; [| | done].
    + destruct (handler_idle (store cfg) ev Hinv) as [Hq | Hs].
      * destruct (advance_quiet _ [] cfg Hq) as [Hp' Hl'].
        unfold one_in_flight. rewrite Hp'. congruence.
      * by eapply advance_settles.
    + destruct Hinv as [Hbusy Ht].
      destruct (advance_quiet _ [t] cfg (handler_busy _ ev Hbusy)) as [Hp' Hl'].
      unfold one_in_flight. rewrite Hp'. split; [congruence | done].
  - unfold one_in_flight in Hinv. rewrite Hpending in Hinv.
    destruct before as [| t before]; cbn in Hinv.
    + destruct after as [| t' after]; [| done].
      destruct Hinv as [Hbusy Hk]. cbn. by eapply advance_settles.
    + by destruct before.
Qed.

Lemma reachable_one_in_flight (cfg : Config) :
  reachable cfg -> one_in_flight cfg.
Proof.
  induction 1 as [defaultModel starter ls | cfg cfg' _ IH Hstep].
  - apply mounted_idle.
  - by eapply step_one_in_flight.
Qed.

(** C5. A submission made while the flag is set does nothing: the call
    returns at its first guard, so it makes no network call and changes
    neither the conversation nor anything else, and the configuration of
    the component is the same after it.  Hence in every configuration the
    component reaches at most one call is suspended on the network, and one
    is exactly when the flag is set. *)
Theorem submission_in_flight_is_noop :
  (forall (env : Env) (st : State) (message : option jsstr),
      loading st = true ->
      exec env (sendMessage st message) st
      = {| trace := []; final := st; completion := Normal tt |})
  /\ (forall (cfg : Config) (message : option jsstr),
        loading (store cfg) = true ->
        advance (sendMessage (store cfg) message) (pending cfg) cfg = cfg)
  /\ (forall cfg : Config,
        reachable cfg ->
        length (pending cfg) <= 1
        /\ (pending cfg = [] <-> loading (store cfg) = false)).
Proof.
  split; [| split].
  - intros env st message Hbusy. by rewrite sendMessage_busy.
  - intros cfg message Hbusy. rewrite sendMessage_busy by done.
    by apply advance_return.
  - intros cfg Hreach. apply reachable_one_in_flight in Hreach.
    unfold one_in_flight in Hreach.
    destruct (pending cfg) as [| t [| t' tasks]]; [| | done].
    + split; [cbn; lia | done].
    + destruct Hreach as [Hbusy _]. split; [cbn; lia |].
      split; [done | congruence].
Qed.

Lemma submission_in_flight_is_noop_witness :
  after_user (Suggest (lit "again")) request_in_flight = request_in_flight
  /\ after_user Submit request_in_flight = request_in_flight
  /\ length (pending request_in_flight) <= 1.
Proof.
  destruct submission_in_flight_is_noop as (_ & Hnoop & Hone).
  split; [| split].
  - apply (Hnoop request_in_flight (Some (lit "again"))). reflexivity.
  - apply (Hnoop request_in_flight None). reflexivity.
  - apply Hone. unfold request_in_flight, after_user.
    do 2 (eapply reach_step; [| apply step_user]). apply reach_mounted.
Defined.

(** * Further properties *)

(** ** Rendering *)

Lemma split_lines_nonempty (s : jsstr) : split_lines s <> [].
Proof.
  destruct s as [| c rest]; [done |]. cbn.
  destruct (c =? 10)%N; [done |]. by destruct (split_lines rest).
Qed.

Lemma join_newline_push (c : code_unit) (line : jsstr) (lines : list jsstr) :
  join newline ((c :: line) :: lines) = c :: join newline (line :: lines).
Proof. by destruct lines. Qed.

Lemma join_newline_blank (lines : list jsstr) :
  lines <> [] -> join newline ([] :: lines) = 10%N :: join newline lines.
Proof. by destruct lines. Qed.

Lemma join_split_lines (s : jsstr) : join newline (split_lines s) = s.
Proof.
  induction s as [| c rest IH]; [done |]. cbn [split_lines].
  destruct (N.eqb_spec c 10) as [-> | Hc].
  - rewrite (join_newline_blank _ (split_lines_nonempty rest)).
    by rewrite IH.
  - pose proof (split_lines_nonempty rest) as Hne.
    destruct (split_lines rest) as [| line lines]; [done |].
    by rewrite join_newline_push, IH.
Qed.

(** X1. Joining the lines [renderMarkdownLike] makes of a text with line
    feeds gives the text back: rendering loses nothing and adds nothing. *)
Theorem renderMarkdownLike_join (text : jsstr) :
  join [10%N] (renderMarkdownLike text) = text.
Proof. apply join_split_lines. Qed.

(** X2. [renderMarkdownLike] makes one line more than the text has line
    feeds (so one empty line for the empty text), and no line holds a line
    feed. *)
Theorem renderMarkdownLike_lines (text : jsstr) :
  length (renderMarkdownLike text)
  = S (length (filter (fun c => c = 10%N) text))
  /\ Forall (fun line => 10%N ∉ line) (renderMarkdownLike text).
Proof.
  unfold renderMarkdownLike, jsstr, code_unit in *.
  induction text as [| c rest [IHlen IHall]].
  - split; [done |]. constructor; [| done]. by intros ?%elem_of_nil.
  - cbn [split_lines]. destruct (N.eqb_spec c 10) as [-> | Hc].
    + split.
      * rewrite filter_cons_True by done. cbn. by rewrite IHlen.
      * constructor; [by intros ?%elem_of_nil | done].
    + rewrite filter_cons_False by done.
      pose proof (split_lines_nonempty rest) as Hne.
      destruct (split_lines rest) as [| line lines]; [done |].
      split; [done |].
      inversion IHall as [| ? ? Hline Hlines]; subst.
      constructor; [| done].
      intros [Heq | Hin]%elem_of_cons; [by apply Hc | by apply Hline].
Qed.

Lemma split_lines_clean (line : jsstr) :
  10%N ∉ line -> split_lines line = [line].
Proof.
  induction line as [| c rest IH]; intros Hclean; [done |].
  cbn [split_lines]. destruct (N.eqb_spec c 10) as [-> | Hc].
  - exfalso. apply Hclean. by left.
  - rewrite IH; [done |]. intros Hin. apply Hclean. by right.
Qed.

Lemma split_lines_join (lines : list jsstr) :
  lines <> [] ->
  Forall (fun line => 10%N ∉ line) lines ->
  split_lines (join newline lines) = lines.
Proof.
  induction lines as [| line [| next lines] IH]; intros Hne Hclean; [done | |].
  - cbn. apply split_lines_clean. by inversion Hclean.
  - inversion Hclean as [| ? ? Hline Hrest]; subst.
    specialize (IH ltac:(done) Hrest).
    change (join newline (line :: next :: lines))
      with (line ++ newline ++ join newline (next :: lines)).
    clear Hne Hclean. induction line as [| c line IHline].
    + change (split_lines (10%N :: join newline (next :: lines))
              = [] :: next :: lines).
      cbn [split_lines]. by rewrite N.eqb_refl, IH.
    + cbn [app split_lines]. destruct (N.eqb_spec c 10) as [-> | Hc].
      * exfalso. apply Hline. by left.
      * rewrite IHline; [done |]. intros Hin. apply Hline. by right.
Qed.

(** X3. A message with at least one part and no line feed in the text of
    its parts is shown as exactly one line per part, in order. *)
Theorem message_view_one_line_per_part (m : ChatMsg) :
  parts m <> [] ->
  Forall (fun p => 10%N ∉ text p) (parts m) ->
  shown_lines (message_view m) = map text (parts m).
Proof.
  intros Hne Hclean. cbn. unfold renderMarkdownLike.
  apply split_lines_join.
  - by destruct (parts m).
  - by apply Forall_map.
Qed.

Lemma message_view_one_line_per_part_witness :
  shown_lines (message_view
    {| role := Model;
       parts := [ {| text := lit "a b" |}; {| text := [] |};
                  {| text := lit "c" |} ] |})
  = [lit "a b"; []; lit "c"].
Proof.
  apply (message_view_one_line_per_part
    {| role := Model;
       parts := [ {| text := lit "a b" |}; {| text := [] |};
                  {| text := lit "c" |} ] |}).
  - discriminate.
  - apply (bool_decide_unpack _). vm_compute. exact I.
Defined.

Lemma is_empty_false_inv (s : jsstr) : is_empty s = false -> s <> [].
Proof. by destruct s. Qed.

Lemma is_empty_true_inv (s : jsstr) : is_empty s = true -> s = [].
Proof. by destruct s. Qed.

(** X4. The message list shows one block per conversation entry, in order,
    and one more while a request is in flight.  The block of an entry is
    labelled ["You"] exactly for a user entry, and its lines joined with
    line feeds are the content the transformer sends for that entry: what
    is shown is what is sent. *)
Theorem AItest_view_messages (st : State) :
  length (messages_view (AItest_view st))
  = length (history st) + (if loading st then 1 else 0)
  /\ forall (i : nat) (m : ChatMsg),
      history st !! i = Some m ->
      exists (v : MessageView) (out : ApiMsg),
        messages_view (AItest_view st) !! i = Some v
        /\ toOpenAIMessages (history st) !! i = Some out
        /\ join [10%N] (shown_lines v) = content out
        /\ (shown_role v = lit "You" <-> role m = User).
Proof.
  split.
  - cbn. rewrite length_app, length_map. by destruct (loading st).
  - intros i m Hi. exists (message_view m). eexists.
    split; [| split; [| split]].
    + cbn. rewrite lookup_app_l.
      * by rewrite list_lookup_fmap, Hi.
      * rewrite length_map. by eapply lookup_lt_Some.
    + by rewrite toOpenAIMessages_lookup, Hi.
    + cbn [message_view shown_lines content].
      apply join_split_lines.
    + cbn. by destruct (role m).
Qed.

Lemma AItest_view_messages_witness :
  exists (v : MessageView) (out : ApiMsg),
    messages_view (AItest_view sample_state) !! 0 = Some v
    /\ toOpenAIMessages (history sample_state) !! 0 = Some out
    /\ join [10%N] (shown_lines v) = content out.
Proof.
  destruct (AItest_view_messages sample_state) as [_ H].
  destruct (H 0 (model_msg greeting) eq_refl) as (v & out & Hv & Hout & Hjoin & _).
  by exists v, out.
Defined.

(** X5. The submit button is disabled exactly when submitting the form
    would issue no request: the button's test and the guards of
    [sendMessage] on the input field agree. *)
Theorem submit_disabled_iff_no_request (env : Env) (st : State) :
  submit_disabled (AItest_view st) = true
  <-> requests (trace (exec env (sendMessage st None) st)) = [].
Proof.
  cbn [AItest_view submit_disabled].
  destruct (loading st) eqn:Hloading.
  { rewrite sendMessage_busy by done. by cbn. }
  destruct (is_empty (trim (input st))) eqn:Hblank.
  { rewrite sendMessage_blank by (by apply is_empty_true_inv). by cbn. }
  destruct (is_empty (apiKey st)) eqn:Hkey.
  { rewrite sendMessage_keyless;
      [by cbn | by apply is_empty_false_inv | done | by apply is_empty_true_inv]. }
  destruct (dispatched_prefix env st None) as (rest & _ & Hreqs);
    [by apply is_empty_false_inv | done | by apply is_empty_false_inv |].
  rewrite Hreqs. by cbn.
Qed.

Lemma submit_disabled_iff_no_request_witness :
  submit_disabled (AItest_view sample_state) = true
  /\ submit_disabled (AItest_view drafting_state) = false.
Proof.
  split.
  - apply (submit_disabled_iff_no_request offline sample_state). reflexivity.
  - destruct (submit_disabled (AItest_view drafting_state)) eqn:Hd; [| done].
    apply (submit_disabled_iff_no_request offline drafting_state) in Hd.
    vm_compute in Hd. discriminate Hd.
Defined.

(** ** More on [sendMessage] *)

(** X6. A text that is empty after trimming makes the call do nothing at
    all, even with no key (no error is shown); and an explicit message is
    not replaced by the input field when it is blank. *)
Theorem send_blank_does_nothing (env : Env) (st : State) (msg : option jsstr) :
  trim (default (input st) msg) = [] ->
  exec env (sendMessage st msg) st
  = {| trace := []; final := st; completion := Normal tt |}.
Proof. intros Hblank. by rewrite sendMessage_blank. Qed.

Lemma send_blank_does_nothing_witness :
  exec offline (sendMessage drafting_state (Some (lit "  "))) drafting_state
  = {| trace := []; final := drafting_state; completion := Normal tt |}
  /\ exec offline (sendMessage (first_render (lit "gpt-5") ∅) (Some []))
       (first_render (lit "gpt-5") ∅)
     = {| trace := []; final := first_render (lit "gpt-5") ∅;
          completion := Normal tt |}.
Proof.
  split.
  - apply (send_blank_does_nothing offline drafting_state (Some (lit "  "))).
    reflexivity.
  - apply (send_blank_does_nothing offline (first_render (lit "gpt-5") ∅)
             (Some [])).
    reflexivity.
Defined.

(** *** Failures *)

Section Failures.
Variables (st : State) (msg : option jsstr).
Hypothesis content_nonempty : trim (default (input st) msg) <> [].
Hypothesis idle : loading st = false.
Hypothesis key_present : apiKey st <> [].

Lemma rejected_fetch (env : Env) (err : JsError) :
  env (completions_request (apiKey st) (model st)
         (toOpenAIMessages
            (history st ++ [user_msg (trim (default (input st) msg))])))
  = Rejected err ->
  history (final (exec env (sendMessage st msg) st))
  = history st ++ [user_msg (trim (default (input st) msg))]
  /\ error (final (exec env (sendMessage st msg) st)) = error_text err
  /\ List.filter is_network (trace (exec env (sendMessage st msg) st))
     = [awaited (fetch (completions_request (apiKey st) (model st)
                          (toOpenAIMessages
                             (history st
                              ++ [user_msg (trim (default (input st) msg))]))))].
Proof.
  intros Henv. dispatch content_nonempty idle key_present. run.
  rewrite Henv. run. done.
Qed.

Lemma rejected_json (resp : Response) (err : JsError) :
  ok resp = true ->
  body_json resp = Rejected err ->
  history (final (exec (answering resp) (sendMessage st msg) st))
  = history st ++ [user_msg (trim (default (input st) msg))]
  /\ error (final (exec (answering resp) (sendMessage st msg) st))
     = error_text err.
Proof.
  intros Hok Hjson. dispatch content_nonempty idle key_present. run.
  rewrite Hok. run. rewrite Hjson. run. done.
Qed.

Lemma rejected_text (resp : Response) (err : JsError) :
  ok resp = false ->
  body_text resp = Rejected err ->
  history (final (exec (answering resp) (sendMessage st msg) st))
  = history st ++ [user_msg (trim (default (input st) msg))]
  /\ error (final (exec (answering resp) (sendMessage st msg) st))
     = error_text err.
Proof.
  intros Hok Htext. dispatch content_nonempty idle key_present. run.
  rewrite Hok. run. rewrite Htext. run. done.
Qed.

Lemma network_events (env : Env) :
  List.filter is_network (trace (exec env (sendMessage st msg) st))
  = awaited (fetch (completions_request (apiKey st) (model st)
                      (toOpenAIMessages
                         (history st
                          ++ [user_msg (trim (default (input st) msg))]))))
    :: match env (completions_request (apiKey st) (model st)
                    (toOpenAIMessages
                       (history st
                        ++ [user_msg (trim (default (input st) msg))]))) with
       | Rejected _ => []
       | Fulfilled resp =>
           [if ok resp then awaited (resp_json resp)
            else awaited (resp_text resp)]
       end.
Proof.
  dispatch content_nonempty idle key_present. run. cbn [List.filter is_network].
  f_equal. destruct (env _) as [resp | err]; run; [| done].
  destruct (ok resp); run; cbn [List.filter is_network]; f_equal.
  - by destruct (body_json resp).
  - by destruct (body_text resp).
Qed.

Lemma error_calls_dispatched (env : Env) :
  error_calls (trace (exec env (sendMessage st msg) st)) = [[]]
  /\ error (final (exec env (sendMessage st msg) st)) = []
  \/ exists shown : jsstr,
      error_calls (trace (exec env (sendMessage st msg) st)) = [[]; shown]
      /\ error (final (exec env (sendMessage st msg) st)) = shown.
Proof.
  dispatch content_nonempty idle key_present. run. cbn [error_calls].
  destruct (env _) as [resp | err]; run; cbn [error_calls]; [| right; by eexists].
  destruct (ok resp); run; cbn [error_calls].
  - destruct (body_json resp); run; cbn [error_calls];
      [by left | right; by eexists].
  - destruct (body_text resp); run; cbn [error_calls]; right; by eexists.
Qed.

Lemma input_cleared (env : Env) :
  input (final (exec env (sendMessage st msg) st)) = [].
Proof.
  dispatch content_nonempty idle key_present. run.
  destruct (env _) as [resp | err]; run; [| done].
  destruct (ok resp); run.
  - by destruct (body_json resp).
  - by destruct (body_text resp).
Qed.
End Failures.

Lemma error_text_message (err : JsError) :
  message err <> [] -> error_text err = message err.
Proof. intros Hmsg. unfold error_text. by rewrite (is_empty_false _ Hmsg). Qed.

(** X7. When the transport fails (the [fetch] promise rejects), the user
    message stays in the conversation with nothing after it, the error
    shown is the message of the rejection, the flag is cleared, and the
    [fetch] is the only network operation: no body is read. *)
Theorem send_transport_failure (st : State) (msg : option jsstr) (err : JsError) :
  trim (default (input st) msg) <> [] ->
  loading st = false ->
  apiKey st <> [] ->
  message err <> [] ->
  history (final (exec (fun _ => Rejected err) (sendMessage st msg) st))
  = history st ++ [user_msg (trim (default (input st) msg))]
  /\ error (final (exec (fun _ => Rejected err) (sendMessage st msg) st))
     = message err
  /\ loading (final (exec (fun _ => Rejected err) (sendMessage st msg) st))
     = false
  /\ List.filter is_network
       (trace (exec (fun _ => Rejected err) (sendMessage st msg) st))
     = [awaited (fetch (completions_request (apiKey st) (model st)
                          (toOpenAIMessages
                             (history st
                              ++ [user_msg (trim (default (input st) msg))]))))].
Proof.
  intros Hcontent Hidle Hkey Hmsg.
  destruct (rejected_fetch st msg Hcontent Hidle Hkey (fun _ => Rejected err)
              err eq_refl) as (Hhistory & Herror & Hnet).
  destruct (dispatched_settles (fun _ => Rejected err) st msg Hcontent Hidle Hkey)
    as (Hloading & _).
  rewrite Herror, error_text_message by done. done.
Qed.

Lemma send_transport_failure_witness :
  history (final (send offline (lit "hi") sample_state))
  = [model_msg greeting; user_msg (lit "hi")]
  /\ error (final (send offline (lit "hi") sample_state))
     = lit "Failed to fetch".
Proof.
  destruct (send_transport_failure sample_state (Some (lit "hi"))
              {| name := lit "TypeError"; message := lit "Failed to fetch" |})
    as (Hhistory & Herror & _);
    [vm_compute; discriminate | reflexivity | vm_compute; discriminate
    | vm_compute; discriminate |].
  split; [exact Hhistory | exact Herror].
Defined.

(** X8. A success status whose body does not parse is an error, not a
    reply: the user message stays with nothing after it and the error shown
    is the text of the parse failure. *)
Theorem send_unparsable_body
    (st : State) (msg : option jsstr) (resp : Response) (err : JsError) :
  trim (default (input st) msg) <> [] ->
  loading st = false ->
  apiKey st <> [] ->
  ok resp = true ->
  body_json resp = Rejected err ->
  history (final (exec (answering resp) (sendMessage st msg) st))
  = history st ++ [user_msg (trim (default (input st) msg))]
  /\ error (final (exec (answering resp) (sendMessage st msg) st))
     = error_text err
  /\ (message err <> [] ->
      error (final (exec (answering resp) (sendMessage st msg) st))
      = message err).
Proof.
  intros Hcontent Hidle Hkey Hok Hjson.
  destruct (rejected_json st msg Hcontent Hidle Hkey resp err Hok Hjson)
    as [Hhistory Herror].
  split; [done |]. split; [done |].
  intros Hmsg. by rewrite Herror, error_text_message.
Qed.

Lemma send_unparsable_body_witness :
  history (final (send (answering garbled_response) (lit "hi") sample_state))
  = [model_msg greeting; user_msg (lit "hi")]
  /\ error (final (send (answering garbled_response) (lit "hi") sample_state))
     = lit "Unexpected token".
Proof.
  destruct (send_unparsable_body sample_state (Some (lit "hi"))
              garbled_response not_json)
    as (Hhistory & Herror & _);
    [vm_compute; discriminate | reflexivity | vm_compute; discriminate
    | reflexivity | reflexivity |].
  split; [exact Hhistory | exact Herror].
Defined.

(** X9. When the status is a failure and the body cannot be read, the error
    shown is the text of the read failure alone: the HTTP status does not
    appear in it. *)
Theorem send_unreadable_error_body
    (st : State) (msg : option jsstr) (resp : Response) (err : JsError) :
  trim (default (input st) msg) <> [] ->
  loading st = false ->
  apiKey st <> [] ->
  ok resp = false ->
  body_text resp = Rejected err ->
  history (final (exec (answering resp) (sendMessage st msg) st))
  = history st ++ [user_msg (trim (default (input st) msg))]
  /\ error (final (exec (answering resp) (sendMessage st msg) st))
     = error_text err.
Proof.
  intros Hcontent Hidle Hkey Hok Htext.
  by apply rejected_text.
Qed.

Lemma send_unreadable_error_body_witness :
  error (final (send (answering broken_response) (lit "hi") sample_state))
  = lit "network error".
Proof.
  destruct (send_unreadable_error_body sample_state (Some (lit "hi"))
              broken_response
              {| name := lit "TypeError"; message := lit "network error" |})
    as (_ & Herror);
    [vm_compute; discriminate | reflexivity | vm_compute; discriminate
    | reflexivity | reflexivity |].
  exact Herror.
Defined.

(** *** Replies *)

(** X10. Whatever string the first completion holds as content is appended
    verbatim as a model message after the user message, with no error; this
    includes the empty string, which is not replaced by the placeholder. *)
Theorem send_string_content_verbatim
    (st : State) (msg : option jsstr) (resp : Response) (data : json)
    (reply : jsstr) :
  trim (default (input st) msg) <> [] ->
  loading st = false ->
  apiKey st <> [] ->
  ok resp = true ->
  body_json resp = Fulfilled data ->
  completion_content data = Some (JStr reply) ->
  history (final (exec (answering resp) (sendMessage st msg) st))
  = history st ++ [user_msg (trim (default (input st) msg)); model_msg reply]
  /\ error (final (exec (answering resp) (sendMessage st msg) st)) = [].
Proof.
  intros Hcontent Hidle Hkey Hok Hjson Hreply.
  destruct (success_appends_reply st msg resp Hcontent Hidle Hkey data Hok Hjson)
    as (Hhistory & Herror & _).
  by rewrite Hhistory, Herror, Hreply.
Qed.

Lemma send_string_content_verbatim_witness :
  history (final (send (answering empty_content_response) (lit "hi")
                    sample_state))
  = [model_msg greeting; user_msg (lit "hi"); model_msg []].
Proof.
  destruct (send_string_content_verbatim sample_state (Some (lit "hi"))
              empty_content_response empty_content_data [])
    as (Hhistory & _);
    [vm_compute; discriminate | reflexivity | vm_compute; discriminate
    | reflexivity | reflexivity | reflexivity |].
  exact Hhistory.
Defined.

(** X11. A content that is present but [null] is treated like an absent
    one: the placeholder is appended as a model message and no error is
    set. *)
Theorem send_null_content_placeholder
    (st : State) (msg : option jsstr) (resp : Response) (data : json) :
  trim (default (input st) msg) <> [] ->
  loading st = false ->
  apiKey st <> [] ->
  ok resp = true ->
  body_json resp = Fulfilled data ->
  completion_content data = Some JNull ->
  history (final (exec (answering resp) (sendMessage st msg) st))
  = history st ++ [user_msg (trim (default (input st) msg));
                   model_msg (lit "[No content]")]
  /\ error (final (exec (answering resp) (sendMessage st msg) st)) = [].
Proof.
  intros Hcontent Hidle Hkey Hok Hjson Hnull.
  destruct (success_appends_reply st msg resp Hcontent Hidle Hkey data Hok Hjson)
    as (Hhistory & Herror & _).
  by rewrite Hhistory, Herror, Hnull.
Qed.

Lemma send_null_content_placeholder_witness :
  history (final (send (answering null_content_response) (lit "hi")
                    sample_state))
  = [model_msg greeting; user_msg (lit "hi"); model_msg (lit "[No content]")].
Proof.
  destruct (send_null_content_placeholder sample_state (Some (lit "hi"))
              null_content_response null_content_data)
    as (Hhistory & _);
    [vm_compute; discriminate | reflexivity | vm_compute; discriminate
    | reflexivity | reflexivity | reflexivity |].
  exact Hhistory.
Defined.

(** *** What a send leaves alone *)

Lemma sendMessage_settings (env : Env) (st : State) (msg : option jsstr) :
  apiKey (final (exec env (sendMessage st msg) st)) = apiKey st
  /\ model (final (exec env (sendMessage st msg) st)) = model st
  /\ rememberKey (final (exec env (sendMessage st msg) st)) = rememberKey st
  /\ localStorage (final (exec env (sendMessage st msg) st)) = localStorage st.
Proof.
  unfold sendMessage.
  destruct (is_empty (trim _) || loading st); [done |].
  destruct (is_empty (apiKey st)); [done |]. run.
  destruct (env _) as [resp | err]; run; [| done].
  destruct (ok resp); run.
  - by destruct (body_json resp).
  - by destruct (body_text resp).
Qed.

(** X12. A send never touches the credential, the model, the persistence
    choice or the browser storage, whatever the state, the text and the
    answer of the network. *)
Theorem send_leaves_settings (env : Env) (st : State) (msg : option jsstr) :
  apiKey (final (exec env (sendMessage st msg) st)) = apiKey st
  /\ model (final (exec env (sendMessage st msg) st)) = model st
  /\ rememberKey (final (exec env (sendMessage st msg) st)) = rememberKey st
  /\ localStorage (final (exec env (sendMessage st msg) st)) = localStorage st
  /\ Forall (fun ev => match ev with
                       | called (setItem _ _) | called (removeItem _)
                       | called (setApiKey _) | called (setModel _)
                       | called (setRememberKey _) => False
                       | _ => True
                       end)
       (trace (exec env (sendMessage st msg) st)).
Proof.
  destruct (sendMessage_settings env st msg) as (Hkey & Hmodel & Hremember & Hls).
  repeat (split; [done |]).
  unfold sendMessage.
  destruct (is_empty (trim _) || loading st); [by constructor |].
  destruct (is_empty (apiKey st)); [by repeat constructor |]. run.
  destruct (env _) as [resp | err]; run; [| by repeat constructor].
  destruct (ok resp); run.
  - destruct (body_json resp); by repeat constructor.
  - destruct (body_text resp); by repeat constructor.
Qed.

(** X13. A dispatched send empties the input field, also when the text
    came from a suggestion and a draft was being typed; a send that issues
    no request leaves the draft as it is. *)
Theorem send_input_field (env : Env) (st : State) (msg : option jsstr) :
  (trim (default (input st) msg) <> [] ->
   loading st = false ->
   apiKey st <> [] ->
   input (final (exec env (sendMessage st msg) st)) = [])
  /\ (requests (trace (exec env (sendMessage st msg) st)) = [] ->
      input (final (exec env (sendMessage st msg) st)) = input st).
Proof.
  split; [intros; by apply input_cleared |].
  unfold sendMessage.
  destruct (is_empty (trim _) || loading st); [done |].
  destruct (is_empty (apiKey st)); [done |]. run. discriminate.
Qed.

Lemma send_input_field_witness :
  input (final (exec offline (sendMessage drafting_state (Some (lit "hi")))
                  drafting_state)) = []
  /\ input (final (exec offline
                     (sendMessage (first_render (lit "gpt-5") ∅)
                        (Some (lit "hi")))
                     (first_render (lit "gpt-5") ∅))) = [].
Proof.
  destruct (send_input_field offline drafting_state (Some (lit "hi")))
    as [Hsent _].
  destruct (send_input_field offline (first_render (lit "gpt-5") ∅)
              (Some (lit "hi"))) as [_ Hkept].
  split.
  - apply Hsent; [vm_compute; discriminate | reflexivity
                 | vm_compute; discriminate].
  - apply Hkept. reflexivity.
Defined.

(** X14. A dispatched send first clears the error, whatever was shown
    before, and sets it at most once more: either [setError] is called once,
    with the empty string, and no error is shown at the end, or it is
    called a second and last time with the error shown at the end. *)
Theorem send_error_lifecycle (env : Env) (st : State) (msg : option jsstr) :
  trim (default (input st) msg) <> [] ->
  loading st = false ->
  apiKey st <> [] ->
  error_calls (trace (exec env (sendMessage st msg) st)) = [[]]
  /\ error (final (exec env (sendMessage st msg) st)) = []
  \/ exists shown : jsstr,
      error_calls (trace (exec env (sendMessage st msg) st)) = [[]; shown]
      /\ error (final (exec env (sendMessage st msg) st)) = shown.
Proof. intros. by apply error_calls_dispatched. Qed.

Lemma send_error_lifecycle_witness :
  error_calls (trace (exec (answering hello_response)
                        (sendMessage drafting_state None) drafting_state))
  = [[]]
  /\ error (final (exec (answering hello_response)
                     (sendMessage drafting_state None) drafting_state)) = [].
Proof.
  destruct (send_error_lifecycle (answering hello_response) drafting_state None)
    as [Hclean | (shown & Hcalls & _)];
    [vm_compute; discriminate | reflexivity | vm_compute; discriminate | |].
  - exact Hclean.
  - vm_compute in Hcalls. discriminate Hcalls.
Defined.

(** X15. A dispatched send reads the body of the response exactly once:
    after the one [fetch] it awaits [json()] for a success status and
    [text()] for any other, never both, and nothing when the transport
    fails. *)
Theorem send_reads_body_once (env : Env) (st : State) (msg : option jsstr) :
  trim (default (input st) msg) <> [] ->
  loading st = false ->
  apiKey st <> [] ->
  List.filter is_network (trace (exec env (sendMessage st msg) st))
  = awaited (fetch (completions_request (apiKey st) (model st)
                      (toOpenAIMessages
                         (history st
                          ++ [user_msg (trim (default (input st) msg))]))))
    :: match env (completions_request (apiKey st) (model st)
                    (toOpenAIMessages
                       (history st
                        ++ [user_msg (trim (default (input st) msg))]))) with
       | Rejected _ => []
       | Fulfilled resp =>
           [if ok resp then awaited (resp_json resp)
            else awaited (resp_text resp)]
       end.
Proof. intros. by apply network_events. Qed.

Lemma send_reads_body_once_witness :
  List.filter is_network
    (trace (send (answering unauthorized_response) (lit "hi") sample_state))
  = [awaited (fetch (completions_request (lit "sk-demo") (lit "gpt-5")
                       (toOpenAIMessages
                          [model_msg greeting; user_msg (lit "hi")])));
     awaited (resp_text unauthorized_response)].
Proof.
  apply (send_reads_body_once (answering unauthorized_response) sample_state
           (Some (lit "hi")));
    [vm_compute; discriminate | reflexivity | vm_compute; discriminate].
Defined.

(** *** Turn after turn *)

Section NextTurn.
Variables (env env' : Env) (st : State) (msg : option jsstr) (text' : jsstr).
Hypothesis content_nonempty : trim (default (input st) msg) <> [].
Hypothesis idle : loading st = false.
Hypothesis key_present : apiKey st <> [].
Hypothesis next_nonempty : trim text' <> [].

Lemma next_request :
  requests (trace (send env' text' (final (exec env (sendMessage st msg) st))))
  = [completions_request (apiKey st) (model st)
       (toOpenAIMessages
          (history (final (exec env (sendMessage st msg) st))
           ++ [user_msg (trim text')]))].
Proof.
  destruct (sendMessage_settings env st msg) as (Hkey & Hmodel & _).
  destruct (dispatched_settles env st msg content_nonempty idle key_present)
    as (Hidle' & _).
  destruct (dispatched_prefix env' (final (exec env (sendMessage st msg) st))
              (Some text')) as (rest & _ & Hreqs);
    [done | done | by rewrite Hkey |].
  unfold send. rewrite Hreqs. cbn [default]. by rewrite Hkey, Hmodel.
Qed.
End NextTurn.



(** X17. A turn that failed with an HTTP error stays in the context: the
    request of the next send ends with two user messages in a row, the
    unanswered one and the new one. *)
Theorem failed_turn_is_sent_again
    (env' : Env) (st : State) (msg : option jsstr) (resp : Response)
    (text' : jsstr) :
  trim (default (input st) msg) <> [] ->
  loading st = false ->
  apiKey st <> [] ->
  trim text' <> [] ->
  ok resp = false ->
  exists req : Request,
    requests (trace (send env' text'
                       (final (exec (answering resp) (sendMessage st msg) st))))
    = [req]
    /\ body_messages req
       = toOpenAIMessages (history st)
         ++ [ {| api_role := lit "user";
                 content := trim (default (input st) msg) |};
              {| api_role := lit "user"; content := trim text' |} ].
Proof.
  intros Hcontent Hidle Hkey Hnext Hok.
  eexists. split.
  - by apply next_request.
  - cbn [body_messages completions_request].
    destruct (failure_keeps_user_message st msg resp Hcontent Hidle Hkey Hok)
      as [-> _].
    by rewrite <- app_assoc, toOpenAIMessages_app.
Qed.

Lemma failed_turn_is_sent_again_witness :
  exists req : Request,
    requests (trace (send offline (lit "hello?")
                       (final (send (answering unauthorized_response) (lit "hi")
                                 sample_state))))
    = [req]
    /\ body_messages req
       = toOpenAIMessages [model_msg greeting]
         ++ [ {| api_role := lit "user"; content := lit "hi" |};
              {| api_role := lit "user"; content := lit "hello?" |} ].
Proof.
  apply (failed_turn_is_sent_again offline sample_state (Some (lit "hi"))
           unauthorized_response (lit "hello?"));
    [vm_compute; discriminate | reflexivity | vm_compute; discriminate
    | vm_compute; discriminate | reflexivity].
Defined.

(** ** Invariants across events *)

Section Keeps.
Variable R : World -> World -> Prop.

Lemma run_sync_keeps (m : Prog unit) :
  forall (w0 : World) (st : State) (tr : list Event),
    keeps R m w0 (st, tr) ->
    R w0 ((run_sync m st).1.2, tr ++ (run_sync m st).1.1)
    /\ match (run_sync m st).2 with
       | Some t => task_keeps R t
       | None => True
       end.
Proof.
  induction m as [a | err | eff m IH | X p k IH]; intros w0 st tr Hm.
  - cbn in *. by rewrite app_nil_r.
  - cbn in *. by rewrite app_nil_r.
  - cbn [keeps fst snd] in Hm. specialize (IH _ _ _ Hm).
    cbn [run_sync]. destruct (run_sync m (apply_effect eff st)) as [[tr' st'] t].
    cbn [fst snd] in *. by rewrite <- app_assoc in IH.
  - cbn in *. done.
Qed.

Lemma advance_keeps (m : Prog unit) (others : list Task) (cfg : Config)
    (w0 : World) :
  keeps R m w0 (world cfg) ->
  Forall (task_keeps R) others ->
  R w0 (world (advance m others cfg))
  /\ Forall (task_keeps R) (pending (advance m others cfg)).
Proof.
  intros Hm Hothers.
  destruct (run_sync_keeps m w0 (store cfg) (log cfg) Hm) as [HR Ht].
  unfold advance, world.
  destruct (run_sync m (store cfg)) as [[tr' st'] t]. cbn [fst snd] in *.
  split; [done |]. cbn [pending]. apply Forall_app. split; [done |].
  destruct t; cbn; by repeat constructor.
Qed.

Hypothesis handlers_keep :
  forall (w : World) (ev : UserEvent), keeps R (handler w.1 ev) w w.

Lemma step_keeps (cfg cfg' : Config) :
  step cfg cfg' ->
  Forall (task_keeps R) (pending cfg) ->
  R (world cfg) (world cfg') /\ Forall (task_keeps R) (pending cfg').
Proof.
  intros Hstep Htasks.
  destruct Hstep as [cfg ev | cfg X p k before after env Hpending].
  - apply advance_keeps; [apply (handlers_keep (world cfg)) | done].
  - rewrite Hpending in Htasks.
    apply Forall_app in Htasks as [Hbefore Hrest].
    apply Forall_cons in Hrest as [Hk Hafter].
    apply advance_keeps; [apply Hk |].
    apply Forall_app. by split.
Qed.

Lemma mounted_pending (defaultModel starter : jsstr) (ls : gmap jsstr jsstr) :
  pending (mounted defaultModel starter ls) = [].
Proof.
  unfold mounted, load_saved_key. cbn [localStorage first_render].
  destruct (ls !! storage_key) as [[| c saved] |], starter; reflexivity.
Qed.

Lemma reachable_tasks_keep (cfg : Config) :
  reachable cfg -> Forall (task_keeps R) (pending cfg).
Proof.
  induction 1 as [defaultModel starter ls | cfg cfg' _ IH Hstep].
  - rewrite mounted_pending. constructor.
  - by apply (step_keeps cfg cfg').
Qed.

Lemma reachable_step_keeps (cfg cfg' : Config) :
  reachable cfg -> step cfg cfg' -> R (world cfg) (world cfg').
Proof.
  intros Hreach Hstep.
  by apply step_keeps, reachable_tasks_keep.
Qed.

Hypothesis R_refl : forall w : World, R w w.
Hypothesis R_trans : forall w1 w2 w3 : World, R w1 w2 -> R w2 w3 -> R w1 w3.

Lemma reachable_steps_keep (cfg cfg' : Config) :
  reachable cfg -> rtc step cfg cfg' -> R (world cfg) (world cfg').
Proof.
  intros Hreach Hsteps. induction Hsteps as [cfg | cfg mid cfg' Hstep _ IH].
  - apply R_refl.
  - eapply R_trans; [by apply reachable_step_keeps |].
    apply IH. by eapply reach_step.
Qed.
End Keeps.

(** A property of the world that every stretch preserves holds in every
    configuration the component reaches, once it holds when mounted. *)
Lemma reachable_invariant (I : World -> Prop) :
  (forall (w : World) (ev : UserEvent),
      keeps (fun w0 w' => I w0 -> I w') (handler w.1 ev) w w) ->
  (forall (defaultModel starter : jsstr) (ls : gmap jsstr jsstr),
      I (world (mounted defaultModel starter ls))) ->
  forall cfg : Config, reachable cfg -> I (world cfg).
Proof.
  intros Hhandlers Hmounted cfg Hreach.
  induction Hreach as [defaultModel starter ls | cfg cfg' Hreach IH Hstep].
  - apply Hmounted.
  - by apply (reachable_step_keeps _ Hhandlers cfg cfg').
Qed.

(** Split the obligation [keeps R (handler st ev)] into its stretches. *)
Ltac stretches :=
  cbn [keeps bind try_catch try_finally call await fst snd negb];
  repeat match goal with
         | |- _ /\ _ => split
         | |- forall (o : Settled _) (w' : World), _ =>
             intros [? | ?] [? ?];
             cbn [keeps bind try_catch try_finally call await fst snd negb]
         | |- keeps _ (bind (if negb (ok ?r) then _ else _) _) _ _ =>
             destruct (ok r);
             cbn [keeps bind try_catch try_finally call await fst snd negb]
         | |- keeps _ (try_finally (try_catch (bind (if negb (ok ?r) then _ else _) _) _) _) _ _ =>
             destruct (ok r);
             cbn [keeps bind try_catch try_finally call await fst snd negb]
         end.

(** The obligations of [sendMessage], [st] being the state of the call. *)
Ltac stretches_of_sendMessage st :=
  unfold sendMessage;
  let Hblank := fresh "Hblank" in
  let Hbusy := fresh "Hbusy" in
  let Hkey := fresh "Hkey" in
  destruct (is_empty (trim _)) eqn:Hblank; cbn [orb];
  [stretches
  | destruct (loading st) eqn:Hbusy;
    [stretches | destruct (is_empty (apiKey st)) eqn:Hkey; stretches]].

(** *** The stored credential *)

Lemma sendMessage_keeps_credential (w : World) (msg : option jsstr) :
  keeps (fun w0 w' => credential_synced w0.1 -> credential_synced w'.1)
    (sendMessage w.1 msg) w w.
Proof.
  destruct w as [st tr]. cbn [fst].
  stretches_of_sendMessage st; done.
Qed.

Lemma handlers_keep_credential (w : World) (ev : UserEvent) :
  keeps (fun w0 w' => credential_synced w0.1 -> credential_synced w'.1)
    (handler w.1 ev) w w.
Proof.
  destruct ev as [| q | v | checked | v | v]; cbn [handler];
    try apply sendMessage_keeps_credential;
    destruct w as [st tr]; cbn [fst]; [| | by stretches | by stretches].
  - unfold apiKey_onChange, credential_synced.
    destruct (rememberKey st) eqn:Hremember; stretches;
      cbn; rewrite Hremember; [| done].
    intros _. left. apply lookup_insert_eq.
  - unfold rememberKey_onChange, credential_synced.
    destruct checked; cbn [negb].
    + destruct (is_empty (apiKey st)) eqn:Hkey; stretches; cbn.
      * apply is_empty_true_inv in Hkey. rewrite Hkey.
        destruct (rememberKey st); [done |]. by right.
      * intros _. left. apply lookup_insert_eq.
    + stretches. cbn. intros _. apply lookup_delete_eq.
Qed.

Lemma mounted_credential_synced
    (defaultModel starter : jsstr) (ls : gmap jsstr jsstr) :
  credential_synced (store (mounted defaultModel starter ls)).
Proof.
  unfold mounted, load_saved_key, credential_synced.
  cbn [localStorage first_render].
  destruct (ls !! storage_key) as [[| c saved] |] eqn:Hls, starter;
    cbn -[storage_key lookup]; rewrite Hls; first [by left | by right].
Qed.

Lemma reachable_credential_synced (cfg : Config) :
  reachable cfg -> credential_synced (store cfg).
Proof.
  apply (reachable_invariant (fun w => credential_synced w.1)).
  - apply handlers_keep_credential.
  - apply mounted_credential_synced.
Qed.

(** X18. In every configuration the component reaches, the stored
    credential mirrors the one in memory: while persistence is on, the slot
    holds exactly the credential in memory (or the credential is empty and
    the slot is absent); while it is off, nothing is stored.  Sending
    messages and the arrival of answers never disturb this. *)
Theorem stored_credential_mirrors_memory (cfg : Config) :
  reachable cfg ->
  (rememberKey (store cfg) = true ->
   localStorage (store cfg) !! storage_key = Some (apiKey (store cfg))
   \/ (apiKey (store cfg) = []
       /\ localStorage (store cfg) !! storage_key = None))
  /\ (rememberKey (store cfg) = false ->
      localStorage (store cfg) !! storage_key = None).
Proof.
  intros Hreach. apply reachable_credential_synced in Hreach.
  unfold credential_synced in Hreach.
  by destruct (rememberKey (store cfg)).
Qed.

Lemma stored_credential_mirrors_memory_witness :
  localStorage (store keyless_in_flight) !! storage_key
  = Some (apiKey (store keyless_in_flight))
  \/ (apiKey (store keyless_in_flight) = []
      /\ localStorage (store keyless_in_flight) !! storage_key = None).
Proof.
  apply (stored_credential_mirrors_memory keyless_in_flight).
  - unfold keyless_in_flight, request_in_flight, after_user.
    do 3 (eapply reach_step; [| apply step_user]). apply reach_mounted.
  - reflexivity.
Defined.

(** X19. Reloading the page restores the credential: mounting the
    component on the storage of a reached configuration gives back the
    credential that was in memory when persistence was on, and the empty
    credential when it was off. *)
Theorem remount_restores_credential
    (cfg : Config) (defaultModel starter : jsstr) :
  reachable cfg ->
  apiKey (store (mounted defaultModel starter (localStorage (store cfg))))
  = if rememberKey (store cfg) then apiKey (store cfg) else [].
Proof.
  intros Hreach. apply reachable_credential_synced in Hreach.
  unfold credential_synced in Hreach.
  unfold mounted, load_saved_key. cbn [localStorage first_render].
  destruct (rememberKey (store cfg)).
  - destruct Hreach as [Hls | [Hkey Hls]]; rewrite Hls.
    + destruct (apiKey (store cfg)) as [| c key], starter; reflexivity.
    + rewrite Hkey. by destruct starter.
  - rewrite Hreach. by destruct starter.
Qed.

Lemma remount_restores_credential_witness :
  apiKey (store (mounted (lit "gpt-5") []
                   (localStorage (store request_in_flight))))
  = lit "sk-demo".
Proof.
  apply (remount_restores_credential request_in_flight (lit "gpt-5") []).
  unfold request_in_flight, after_user.
  do 2 (eapply reach_step; [| apply step_user]). apply reach_mounted.
Defined.

(** *** Trimming *)

Lemma trimStart_clean (s : jsstr) : starts_clean (trimStart s).
Proof.
  induction s as [| c rest IH]; [done |]. cbn.
  by destruct (is_white c) eqn:Hc.
Qed.

Lemma trimStart_fixed (s : jsstr) : starts_clean s -> trimStart s = s.
Proof. destruct s as [| c rest]; [done |]. cbn. by intros ->. Qed.

Lemma trimStart_snoc (s : jsstr) (c : code_unit) :
  is_white c = false -> trimStart (s ++ [c]) = trimStart s ++ [c].
Proof.
  intros Hc. induction s as [| d rest IH]; cbn; [by rewrite Hc |].
  by destruct (is_white d).
Qed.

Lemma trimEnd_clean (s : jsstr) : starts_clean s -> starts_clean (trimEnd s).
Proof.
  destruct s as [| c rest]; [done |]. cbn [starts_clean]. intros Hc.
  unfold trimEnd. cbn [rev]. rewrite trimStart_snoc by done.
  by rewrite rev_app_distr.
Qed.

Lemma trimEnd_idempotent (s : jsstr) : trimEnd (trimEnd s) = trimEnd s.
Proof.
  unfold trimEnd. rewrite rev_involutive.
  by rewrite (trimStart_fixed _ (trimStart_clean _)).
Qed.

Lemma trim_idempotent (s : jsstr) : trim (trim s) = trim s.
Proof.
  unfold trim.
  rewrite (trimStart_fixed (trimEnd (trimStart s)))
    by apply trimEnd_clean, trimStart_clean.
  apply trimEnd_idempotent.
Qed.

(** *** The conversation *)

Lemma conversation_grows_refl (w : World) : conversation_grows w w.
Proof. by unfold conversation_grows. Qed.

Lemma conversation_grows_trans (w1 w2 w3 : World) :
  conversation_grows w1 w2 -> conversation_grows w2 w3 ->
  conversation_grows w1 w3.
Proof. unfold conversation_grows. by etrans. Qed.

Lemma handlers_keep_conversation (w : World) (ev : UserEvent) :
  keeps conversation_grows (handler w.1 ev) w w.
Proof.
  destruct w as [st tr].
  destruct ev as [| q | v | checked | v | v]; cbn [handler fst].
  - stretches_of_sendMessage st; unfold conversation_grows; cbn;
      first [done | by apply prefix_app_r].
  - stretches_of_sendMessage st; unfold conversation_grows; cbn;
      first [done | by apply prefix_app_r].
  - unfold apiKey_onChange.
    by destruct (rememberKey st); stretches; unfold conversation_grows.
  - unfold rememberKey_onChange.
    by destruct checked, (is_empty (apiKey st)); stretches;
      unfold conversation_grows.
  - stretches. by unfold conversation_grows.
  - stretches. by unfold conversation_grows.
Qed.

(** X20. The conversation is append-only: whatever the user does and
    whatever the network answers afterwards, the conversation of a reached
    configuration remains the beginning of every later conversation.  No
    event removes, reorders or rewrites a message. *)
Theorem conversation_append_only (cfg cfg' : Config) :
  reachable cfg ->
  rtc step cfg cfg' ->
  history (store cfg) `prefix_of` history (store cfg').
Proof.
  intros Hreach Hsteps.
  apply (reachable_steps_keep conversation_grows handlers_keep_conversation
           conversation_grows_refl conversation_grows_trans cfg cfg' Hreach
           Hsteps).
Qed.

Lemma conversation_append_only_witness :
  history (store (mounted (lit "gpt-5") [] ∅))
  `prefix_of` history (store keyless_in_flight).
Proof.
  apply (conversation_append_only (mounted (lit "gpt-5") [] ∅)
           keyless_in_flight).
  - apply reach_mounted.
  - unfold keyless_in_flight, request_in_flight, after_user.
    eapply rtc_l; [apply step_user |].
    eapply rtc_l; [apply step_user |].
    eapply rtc_l; [apply step_user |].
    apply rtc_refl.
Defined.


Lemma mounted_history (defaultModel starter : jsstr) (ls : gmap jsstr jsstr) :
  history (store (mounted defaultModel starter ls)) = [model_msg greeting].
Proof.
  unfold mounted, load_saved_key. cbn [localStorage first_render].
  destruct (ls !! storage_key) as [[| c saved] |], starter; reflexivity.
Qed.



Lemma well_formed_user (content : jsstr) :
  is_empty (trim content) = false -> well_formed (user_msg (trim content)).
Proof.
  intros Hcontent. exists (trim content). split; [done |]. intros _.
  split; [by apply is_empty_false_inv | apply trim_idempotent].
Qed.

Lemma well_formed_model (reply : jsstr) : well_formed (model_msg reply).
Proof. by exists reply. Qed.

Lemma sendMessage_keeps_well_formed (w : World) (msg : option jsstr) :
  keeps (fun w0 w' => Forall well_formed (history w0.1) ->
                      Forall well_formed (history w'.1))
    (sendMessage w.1 msg) w w.
Proof.
  destruct w as [st tr]. cbn [fst].
  stretches_of_sendMessage st; cbn; try done; intros Hwf;
    apply Forall_app; (split; [done |]); constructor;
    auto using well_formed_user, well_formed_model.
Qed.

Lemma handlers_keep_well_formed (w : World) (ev : UserEvent) :
  keeps (fun w0 w' => Forall well_formed (history w0.1) ->
                      Forall well_formed (history w'.1))
    (handler w.1 ev) w w.
Proof.
  destruct ev as [| q | v | checked | v | v]; cbn [handler];
    try apply sendMessage_keeps_well_formed;
    destruct w as [st tr]; cbn [fst].
  - unfold apiKey_onChange. by destruct (rememberKey st); stretches.
  - unfold rememberKey_onChange.
    by destruct checked, (is_empty (apiKey st)); stretches.
  - by stretches.
  - by stretches.
Qed.

(** X22. Every message of a reached conversation has exactly one part, and
    the text of a user message is non-empty and has no white space at
    either end: it is its own trimming.  So the transformer never has to
    join parts, and sends each text as it is. *)
Theorem conversation_well_formed (cfg : Config) :
  reachable cfg ->
  forall (i : nat) (m : ChatMsg),
    history (store cfg) !! i = Some m ->
    exists t : jsstr,
      parts m = [ {| text := t |} ]
      /\ (role m = User -> t <> [] /\ trim t = t)
      /\ content <$> toOpenAIMessages (history (store cfg)) !! i = Some t.
Proof.
  intros Hreach i m Hi.
  assert (Forall well_formed (history (store cfg))) as Hwf.
  { apply (reachable_invariant (fun w => Forall well_formed (history w.1)));
      [apply handlers_keep_well_formed | | done].
    intros defaultModel starter ls. cbn [world fst].
    rewrite mounted_history. repeat constructor. apply well_formed_model. }
  rewrite Forall_lookup in Hwf. destruct (Hwf i m Hi) as (t & Hparts & Huser).
  exists t. split; [done |]. split; [done |].
  rewrite toOpenAIMessages_lookup, Hi. cbn. by rewrite Hparts.
Qed.

Lemma conversation_well_formed_witness :
  exists t : jsstr,
    parts (user_msg (lit "hi")) = [ {| text := t |} ]
    /\ (role (user_msg (lit "hi")) = User -> t <> [] /\ trim t = t).
Proof.
  destruct (conversation_well_formed request_in_flight) with
    (i := 1) (m := user_msg (lit "hi")) as (t & Hparts & Huser & _).
  - unfold request_in_flight, after_user.
    do 2 (eapply reach_step; [| apply step_user]). apply reach_mounted.
  - reflexivity.
  - by exists t.
Defined.

(** *** Requests and turns *)

Lemma requests_app (tr1 tr2 : list Event) :
  requests (tr1 ++ tr2) = requests tr1 ++ requests tr2.
Proof.
  induction tr1 as [| ev tr1 IH]; [done |]. cbn.
  destruct ev as [eff | X p]; [done |]. destruct p; cbn; by rewrite IH.
Qed.

Lemma user_turns_snoc (h : list ChatMsg) (m : ChatMsg) :
  user_turns (h ++ [m]) = user_turns h + (if is_user m then 1 else 0).
Proof.
  unfold user_turns. rewrite List.filter_app, length_app. cbn.
  by destruct (is_user m).
Qed.

Lemma sendMessage_keeps_request_count (w : World) (msg : option jsstr) :
  keeps (fun w0 w' => one_request_per_turn w0 -> one_request_per_turn w')
    (sendMessage w.1 msg) w w.
Proof.
  destruct w as [st tr]. cbn [fst].
  stretches_of_sendMessage st; unfold one_request_per_turn; cbn [fst snd];
    rewrite ?requests_app; cbn [requests history apply_effect];
    rewrite ?app_nil_r, ?user_turns_snoc, ?length_app; cbn; intros ->; lia.
Qed.

Lemma handlers_keep_request_count (w : World) (ev : UserEvent) :
  keeps (fun w0 w' => one_request_per_turn w0 -> one_request_per_turn w')
    (handler w.1 ev) w w.
Proof.
  destruct ev as [| q | v | checked | v | v]; cbn [handler];
    try apply sendMessage_keeps_request_count;
    destruct w as [st tr]; cbn [fst].
  - unfold apiKey_onChange.
    destruct (rememberKey st); stretches; unfold one_request_per_turn;
      cbn [fst snd]; rewrite ?requests_app; cbn; rewrite ?app_nil_r; done.
  - unfold rememberKey_onChange.
    destruct checked, (is_empty (apiKey st)); stretches;
      unfold one_request_per_turn; cbn [fst snd]; rewrite ?requests_app; cbn;
      rewrite ?app_nil_r; done.
  - stretches. unfold one_request_per_turn. cbn [fst snd].
    rewrite requests_app. cbn. by rewrite app_nil_r.
  - stretches. unfold one_request_per_turn. cbn [fst snd].
    rewrite requests_app. cbn. by rewrite app_nil_r.
Qed.

Lemma mounted_request_count
    (defaultModel starter : jsstr) (ls : gmap jsstr jsstr) :
  one_request_per_turn (world (mounted defaultModel starter ls)).
Proof.
  unfold mounted, load_saved_key. cbn [localStorage first_render].
  destruct (ls !! storage_key) as [[| c saved] |], starter; reflexivity.
Qed.

(** X23. One request per user turn: in every configuration the component
    reaches, the number of [fetch] calls made so far equals the number of
    user messages in the conversation.  No user event and no answer makes a
    request without a user message or a user message without a request. *)
Theorem one_request_per_user_turn (cfg : Config) :
  reachable cfg ->
  length (requests (log cfg)) = user_turns (history (store cfg)).
Proof.
  apply (reachable_invariant one_request_per_turn).
  - apply handlers_keep_request_count.
  - apply mounted_request_count.
Qed.

Lemma one_request_per_user_turn_witness :
  length (requests (log keyless_in_flight)) = 1
  /\ user_turns (history (store keyless_in_flight)) = 1.
Proof.
  assert (reachable keyless_in_flight) as Hreach.
  { unfold keyless_in_flight, request_in_flight, after_user.
    do 3 (eapply reach_step; [| apply step_user]). apply reach_mounted. }
  split.
  - rewrite (one_request_per_user_turn keyless_in_flight Hreach). reflexivity.
  - rewrite <- (one_request_per_user_turn keyless_in_flight Hreach).
    reflexivity.
Defined.

(** *** The rest of the storage *)

Lemma other_keys_kept_refl (w : World) : other_keys_kept w w.
Proof. by intros key. Qed.

Lemma other_keys_kept_trans (w1 w2 w3 : World) :
  other_keys_kept w1 w2 -> other_keys_kept w2 w3 -> other_keys_kept w1 w3.
Proof.
  intros H12 H23 key Hkey. by rewrite (H23 key Hkey), (H12 key Hkey).
Qed.

Lemma sendMessage_keeps_other_keys (w : World) (msg : option jsstr) :
  keeps other_keys_kept (sendMessage w.1 msg) w w.
Proof.
  destruct w as [st tr]. cbn [fst].
  stretches_of_sendMessage st; by intros key.
Qed.

Lemma handlers_keep_other_keys (w : World) (ev : UserEvent) :
  keeps other_keys_kept (handler w.1 ev) w w.
Proof.
  destruct ev as [| q | v | checked | v | v]; cbn [handler];
    try apply sendMessage_keeps_other_keys;
    destruct w as [st tr]; cbn [fst].
  - unfold apiKey_onChange.
    destruct (rememberKey st); stretches; intros key Hkey; cbn; [| done].
    by apply lookup_insert_ne.
  - unfold rememberKey_onChange.
    destruct checked, (is_empty (apiKey st)); stretches; intros key Hkey; cbn;
      first [done | by apply lookup_insert_ne | by apply lookup_delete_ne].
  - stretches. by intros key.
  - stretches. by intros key.
Qed.

Lemma mounted_storage (defaultModel starter : jsstr) (ls : gmap jsstr jsstr) :
  localStorage (store (mounted defaultModel starter ls)) = ls.
Proof.
  unfold mounted, load_saved_key. cbn [localStorage first_render].
  destruct (ls !! storage_key) as [[| c saved] |], starter; reflexivity.
Qed.

(** X24. The component writes to one slot of the browser storage only:
    from the mount on, whatever happens, every other key of the storage
    holds what it held when the component was mounted. *)
Theorem other_storage_keys_untouched
    (defaultModel starter : jsstr) (ls : gmap jsstr jsstr) (cfg : Config)
    (key : jsstr) :
  rtc step (mounted defaultModel starter ls) cfg ->
  key <> lit "openai_api_key" ->
  localStorage (store cfg) !! key = ls !! key.
Proof.
  intros Hsteps Hkey.
  pose proof (reachable_steps_keep other_keys_kept handlers_keep_other_keys
                other_keys_kept_refl other_keys_kept_trans _ cfg
                (reach_mounted defaultModel starter ls) Hsteps) as Hkept.
  specialize (Hkept key Hkey). cbn [world fst] in Hkept.
  by rewrite Hkept, mounted_storage.
Qed.

Lemma other_storage_keys_untouched_witness :
  localStorage
    (store (after_user (RememberChange false)
              (after_user (KeyChange (lit "sk-demo"))
                 (mounted (lit "gpt-5") [] {[ lit "theme" := lit "dark" ]}))))
    !! lit "theme"
  = Some (lit "dark").
Proof.
  rewrite (other_storage_keys_untouched (lit "gpt-5") []
             {[ lit "theme" := lit "dark" ]} _ (lit "theme")).
  - reflexivity.
  - unfold after_user.
    eapply rtc_l; [apply step_user |].
    eapply rtc_l; [apply step_user |].
    apply rtc_refl.
  - vm_compute. discriminate.
Defined.

(** ** Bounds *)

(** X25. Whatever the integer bound, [safeShort] returns the empty string
    only for the empty string. *)
Theorem safeShort_empty_iff (s : jsstr) (n : Z) :
  safeShort s n = [] <-> s = [].
Proof.
  split; [| by intros ->].
  unfold safeShort. destruct s as [| c rest]; [done |]. cbn [is_empty].
  destruct (Z.of_nat (length (c :: rest)) >? n)%Z; [| done].
  unfold ellipsis. intros H. by apply app_eq_nil in H as [_ ?].
Qed.

(** X26. With a negative bound [safeShort s n] truncates from the end: for
    a non-empty [s] it is [s] without its last [-n] code units (nothing
    when there are fewer), followed by the ellipsis. *)
Theorem safeShort_negative (s : jsstr) (n : Z) :
  (n < 0)%Z ->
  s <> [] ->
  safeShort s n = take (length s - Z.to_nat (- n)) s ++ [8230%N].
Proof.
  intros Hn Hs. unfold safeShort. rewrite (is_empty_false _ Hs).
  destruct (Z.gtb_spec (Z.of_nat (length s)) n) as [_ | Hle]; [| lia].
  unfold slice0. destruct (Z.ltb_spec n 0) as [_ | Hge]; [| lia].
  do 2 f_equal. lia.
Qed.

Lemma safeShort_negative_witness :
  safeShort (lit "abcdef") (-2) = lit "abcd" ++ [8230%N]
  /\ safeShort (lit "ab") (-5) = [8230%N].
Proof.
  split.
  - apply (safeShort_negative (lit "abcdef") (-2)); [lia | discriminate].
  - apply (safeShort_negative (lit "ab") (-5)); [lia | discriminate].
Defined.

Lemma number_to_string_short_upto :
  forallb (fun n => length (number_to_string (N.of_nat n)) <=? 3)
    (seq 0 1000) = true.
Proof. vm_compute. reflexivity. Qed.

Lemma number_to_string_length (n : N) :
  (n < 1000)%N -> length (number_to_string n) <= 3.
Proof.
  intros Hn. pose proof number_to_string_short_upto as Hall.
  rewrite forallb_forall in Hall.
  specialize (Hall (N.to_nat n)). rewrite N2Nat.id in Hall.
  apply Nat.leb_le, Hall, in_seq. lia.
Qed.

Lemma http_error_prefix_length (status : N) :
  length (http_error_prefix status) = 21 + length (number_to_string status).
Proof.
  unfold http_error_prefix. rewrite !length_app. cbn. lia.
Qed.

(** X27. The error shown for an HTTP failure whose body is read has at most
    325 code units for a status below 1000, and a body of at most 300 code
    units is shown whole after the fixed text. *)
Theorem http_error_shown_bound
    (st : State) (msg : option jsstr) (resp : Response) (errText : jsstr) :
  trim (default (input st) msg) <> [] ->
  loading st = false ->
  apiKey st <> [] ->
  ok resp = false ->
  (status resp < 1000)%N ->
  body_text resp = Fulfilled errText ->
  length (error (final (exec (answering resp) (sendMessage st msg) st))) <= 325
  /\ (length errText <= 300 ->
      error (final (exec (answering resp) (sendMessage st msg) st))
      = http_error_prefix (status resp) ++ errText).
Proof.
  intros Hcontent Hidle Hkey Hok Hstatus Htext.
  rewrite (failure_error st msg resp Hcontent Hidle Hkey errText Hok Htext).
  split.
  - rewrite length_app, http_error_prefix_length.
    pose proof (number_to_string_length _ Hstatus).
    pose proof (safeShort_default_length errText). lia.
  - intros Hshort. unfold safeShort_default_n.
    by rewrite safeShort_short by lia.
Qed.

Lemma http_error_shown_bound_witness :
  error (final (send (answering unauthorized_response) (lit "hi") sample_state))
  = http_error_prefix 401 ++ lit "Unauthorized".
Proof.
  destruct (http_error_shown_bound sample_state (Some (lit "hi"))
              unauthorized_response (lit "Unauthorized"))
    as [_ Hwhole];
    [vm_compute; discriminate | reflexivity | vm_compute; discriminate
    | reflexivity | reflexivity | reflexivity |].
  apply Hwhole. vm_compute. lia.
Defined.

(** *** A reply or an error *)

Lemma error_text_empty (err : JsError) :
  error_text err = [] <-> name err = [] /\ message err = [].
Proof.
  unfold error_text, error_toString.
  destruct (message err) as [| c m], (name err) as [| d n]; cbn;
    split; intros H; try done; by destruct H.
Qed.

(** X28. Every dispatched send ends in exactly one of two ways, provided
    the errors of the network show as something: a model message is
    appended after the user message and no error is shown, or nothing is
    appended after the user message and a non-empty error is shown. *)
Theorem send_reply_or_error (env : Env) (st : State) (msg : option jsstr) :
  trim (default (input st) msg) <> [] ->
  loading st = false ->
  apiKey st <> [] ->
  rejections_show env ->
  (exists reply : jsstr,
      history (final (exec env (sendMessage st msg) st))
      = history st ++ [user_msg (trim (default (input st) msg)); model_msg reply]
      /\ error (final (exec env (sendMessage st msg) st)) = [])
  \/ (history (final (exec env (sendMessage st msg) st))
      = history st ++ [user_msg (trim (default (input st) msg))]
      /\ error (final (exec env (sendMessage st msg) st)) <> []).
Proof.
  intros Hcontent Hidle Hkey [Hfetch Hbody].
  dispatch Hcontent Hidle Hkey. run.
  destruct (env _) as [resp | err] eqn:Henv; run.
  - destruct (ok resp); run.
    + destruct (body_json resp) as [data | err] eqn:Hjson; run.
      * left. eexists. by rewrite <- app_assoc.
      * right. split; [done |]. eapply Hbody; [done | by right].
    + destruct (body_text resp) as [errText | err] eqn:Htext; run.
      * right. split; [done |].
        rewrite error_text_new_Error by apply http_error_prefix_nonempty.
        apply http_error_prefix_nonempty.
      * right. split; [done |]. eapply Hbody; [done | by left].
  - right. split; [done |]. by eapply Hfetch.
Qed.

Lemma send_reply_or_error_witness :
  (exists reply : jsstr,
      history (final (send offline (lit "hi") sample_state))
      = history sample_state ++ [user_msg (lit "hi"); model_msg reply]
      /\ error (final (send offline (lit "hi") sample_state)) = [])
  \/ (history (final (send offline (lit "hi") sample_state))
      = history sample_state ++ [user_msg (lit "hi")]
      /\ error (final (send offline (lit "hi") sample_state)) <> []).
Proof.
  apply (send_reply_or_error offline sample_state (Some (lit "hi")));
    [vm_compute; discriminate | reflexivity | vm_compute; discriminate |].
  split.
  - intros req err Henv. injection Henv as <-. vm_compute. discriminate.
  - intros req resp err Henv. discriminate Henv.
Defined.

(** ** The scroll script *)

Lemma reveal_each_spec (windowHeight : Z) (measure : nat -> Measure)
    (flags : list bool) :
  forall (i : nat) (counted : bool) (calls : nat),
    calls = (if counted then 1 else 0) ->
    length (reveal_each windowHeight measure i flags counted calls).1.1
    = length flags
    /\ (forall (j : nat) (flag : bool),
          flags !! j = Some flag ->
          (reveal_each windowHeight measure i flags counted calls).1.1 !! j
          = Some (flag || above_fold windowHeight (measure (i + j))))
    /\ (reveal_each windowHeight measure i flags counted calls).2
       = (if (reveal_each windowHeight measure i flags counted calls).1.2
          then 1 else 0)
    /\ (counted = true ->
        (reveal_each windowHeight measure i flags counted calls).1.2 = true).
Proof.
  induction flags as [| flag rest IH]; intros i counted calls Hcalls.
  - cbn. repeat split; [| done..]. intros j flag Hj. by rewrite lookup_nil in Hj.
  - cbn [reveal_each].
    destruct (above_fold windowHeight (measure i)) eqn:Habove.
    + specialize (IH (S i)
        (if contains_counter (measure i) && negb counted then true else counted)
        (if contains_counter (measure i) && negb counted then S calls
         else calls)).
      destruct (reveal_each _ _ (S i) rest _ _) as [[rest' counted'] calls'].
      cbn [fst snd] in *.
      destruct IH as (Hlen & Hflags & Hcount & Hmono).
      { by destruct (contains_counter (measure i)), counted; subst. }
      split; [cbn; by rewrite Hlen |]. split; [| split; [done |]].
      * intros [| j] f Hj; cbn in *.
        -- injection Hj as <-. by rewrite Nat.add_0_r, Habove, orb_true_r.
        -- rewrite Nat.add_succ_r. by apply Hflags.
      * intros ->. apply Hmono. by rewrite andb_false_r.
    + specialize (IH (S i) counted calls Hcalls).
      destruct (reveal_each _ _ (S i) rest counted calls)
        as [[rest' counted'] calls'].
      cbn [fst snd] in *. destruct IH as (Hlen & Hflags & Hcount & Hmono).
      split; [cbn; by rewrite Hlen |]. split; [| done].
      intros [| j] f Hj; cbn in *.
      * injection Hj as <-. by rewrite Nat.add_0_r, Habove, orb_false_r.
      * rewrite Nat.add_succ_r. by apply Hflags.
Qed.

Lemma reveal_each_length (windowHeight : Z) (measure : nat -> Measure)
    (flags : list bool) :
  forall (i : nat) (counted : bool) (calls : nat),
    length (reveal_each windowHeight measure i flags counted calls).1.1
    = length flags.
Proof.
  induction flags as [| flag rest IH]; intros i counted calls; [done |].
  cbn [reveal_each]. destruct (above_fold windowHeight (measure i)).
  - specialize (IH (S i)
      (if contains_counter (measure i) && negb counted then true else counted)
      (if contains_counter (measure i) && negb counted then S calls
       else calls)).
    destruct (reveal_each _ _ (S i) rest _ _) as [[rest' counted'] calls'].
    cbn [fst snd] in *. cbn. by rewrite IH.
  - specialize (IH (S i) counted calls).
    destruct (reveal_each _ _ (S i) rest counted calls)
      as [[rest' counted'] calls'].
    cbn [fst snd] in *. cbn. by rewrite IH.
Qed.

Lemma revealOnScroll_counts (windowHeight : Z) (measure : nat -> Measure)
    (pg : Page) :
  initCounters_calls pg = (if hasCounted pg then 1 else 0) ->
  initCounters_calls (revealOnScroll windowHeight measure pg)
  = (if hasCounted (revealOnScroll windowHeight measure pg) then 1 else 0).
Proof.
  intros Hcalls.
  destruct (reveal_each_spec windowHeight measure (active pg) 0 (hasCounted pg)
              (initCounters_calls pg) Hcalls) as (_ & _ & Hcount & _).
  unfold revealOnScroll.
  by destruct (reveal_each _ _ 0 _ _ _) as [[flags counted] calls].
Qed.

Lemma revealOnScroll_flags (windowHeight : Z) (measure : nat -> Measure)
    (pg : Page) (j : nat) (flag : bool) :
  initCounters_calls pg = (if hasCounted pg then 1 else 0) ->
  active pg !! j = Some flag ->
  active (revealOnScroll windowHeight measure pg) !! j
  = Some (flag || above_fold windowHeight (measure j)).
Proof.
  intros Hcalls Hj.
  destruct (reveal_each_spec windowHeight measure (active pg) 0 (hasCounted pg)
              (initCounters_calls pg) Hcalls) as (_ & Hflags & _).
  specialize (Hflags j flag Hj). unfold revealOnScroll.
  by destruct (reveal_each _ _ 0 _ _ _) as [[flags counted] calls].
Qed.

Lemma scrolled_counts (runs : list (Z * (nat -> Measure))) :
  forall pg : Page,
    initCounters_calls pg = (if hasCounted pg then 1 else 0) ->
    initCounters_calls (scrolled runs pg)
    = (if hasCounted (scrolled runs pg) then 1 else 0).
Proof.
  induction runs as [| run runs IH]; intros pg Hcalls; [done |].
  cbn. apply IH. by apply revealOnScroll_counts.
Qed.

(** X29. The counter animation is started at most once: after the first
    run of [revealOnScroll] and any number of scroll events, [initCounters]
    has been called once if [hasCounted] is set and never otherwise. *)
Theorem initCounters_called_at_most_once
    (classes : list bool) (runs : list (Z * (nat -> Measure))) :
  initCounters_calls (scrolled runs (page_loaded classes))
  = (if hasCounted (scrolled runs (page_loaded classes)) then 1 else 0)
  /\ initCounters_calls (scrolled runs (page_loaded classes)) <= 1.
Proof.
  pose proof (scrolled_counts runs (page_loaded classes) eq_refl) as Hcalls.
  split; [done |]. rewrite Hcalls. destruct (hasCounted _); lia.
Qed.

Lemma scrolled_active (runs : list (Z * (nat -> Measure))) :
  forall (pg : Page) (j : nat),
    initCounters_calls pg = (if hasCounted pg then 1 else 0) ->
    active pg !! j = Some true ->
    active (scrolled runs pg) !! j = Some true.
Proof.
  induction runs as [| run runs IH]; intros pg j Hcalls Hj; [done |].
  cbn. apply IH; [by apply revealOnScroll_counts |].
  by rewrite (revealOnScroll_flags _ _ pg j true).
Qed.

(** X30. An element that was revealed stays revealed: a run of
    [revealOnScroll] marks an element active when its top is more than 80
    pixels above the bottom of the window, and never takes the mark away,
    however the page is scrolled afterwards. *)
Theorem revealed_stays_revealed
    (classes : list bool) (before after : list (Z * (nat -> Measure)))
    (windowHeight : Z) (measure : nat -> Measure) (j : nat) :
  j < length classes ->
  above_fold windowHeight (measure j) = true ->
  active (scrolled after
            (revealOnScroll windowHeight measure
               (scrolled before (page_loaded classes)))) !! j
  = Some true.
Proof.
  intros Hj Habove.
  pose proof (scrolled_counts before (page_loaded classes) eq_refl) as Hcalls.
  apply scrolled_active; [by apply revealOnScroll_counts |].
  assert (is_Some (active (scrolled before (page_loaded classes)) !! j))
    as [flag Hflag].
  { apply lookup_lt_is_Some. clear Hcalls.
    assert (forall pg, length (active (scrolled before pg)) = length (active pg))
      as Hlen; [| by rewrite Hlen].
    induction before as [| run before IH]; intros pg; [done |].
    cbn. rewrite IH. unfold revealOnScroll.
    pose proof (reveal_each_length run.1 run.2 (active pg) 0 (hasCounted pg)
                  (initCounters_calls pg)) as Hrun.
    by destruct (reveal_each _ _ 0 _ _ _) as [[flags counted] calls]. }
  rewrite (revealOnScroll_flags _ _ _ j flag Hcalls Hflag).
  by rewrite Habove, orb_true_r.
Qed.

Lemma revealed_stays_revealed_witness :
  active (scrolled [(600%Z, fun _ => {| top := QArith_base.Qmake 900 1;
                                        contains_counter := false |})]
            (revealOnScroll 800
               (fun _ => {| top := QArith_base.Qmake 1439 2;
                            contains_counter := true |})
               (scrolled [] (page_loaded [false; false])))) !! 1
  = Some true.
Proof.
  apply (revealed_stays_revealed [false; false] []
           [(600%Z, fun _ => {| top := QArith_base.Qmake 900 1;
                                contains_counter := false |})]
           800
           (fun _ => {| top := QArith_base.Qmake 1439 2;
                        contains_counter := true |}) 1).
  - simpl. lia.
  - reflexivity.
Defined.
